(** * mini-mixlr: rooms, signaling and track forwarding

    A shallow embedding of [main.go]: the room registry ([createRoom],
    [joinRoom]), the signaling loop ([handleSignaling]) and the track
    forwarder ([forwardTrack]), together with the part of Go's
    [encoding/json] and [encoding/hex] that the handlers call.

    Go strings and byte slices are Rocq [string]s (sequences of 8-bit
    characters).  Pointers ([*Room], [*webrtc.PeerConnection]) are natural
    numbers indexing a store, so that aliasing is visible. *)

From Stdlib Require Import Ascii String ZArith NArith Lia Bool.
From stdpp Require Import gmap strings list.

Open Scope string_scope.

(** ** encoding/json: decoding into [map[string]json.RawMessage] *)

Module Json.

(** The double quote and the backslash. *)
Definition dquote : ascii := "034".
Definition backslash : ascii := "092".

(** scanner.go, [isSpace]. *)
Definition isSpace (c : ascii) : bool :=
  (c =? " ")%char || (c =? "009")%char || (c =? "013")%char || (c =? "010")%char.

Definition isDigit (c : ascii) : bool :=
  (48 <=? N_of_ascii c)%N && (N_of_ascii c <=? 57)%N.

Definition isDigit19 (c : ascii) : bool :=
  (49 <=? N_of_ascii c)%N && (N_of_ascii c <=? 57)%N.

Definition isHex (c : ascii) : bool :=
  isDigit c
  || ((97 <=? N_of_ascii c)%N && (N_of_ascii c <=? 102)%N)
  || ((65 <=? N_of_ascii c)%N && (N_of_ascii c <=? 70)%N).

(** scanner.go, [stateInStringEsc]: the one-character escapes. *)
Definition isSimpleEscape (c : ascii) : bool :=
  (c =? "b")%char || (c =? "f")%char || (c =? "n")%char || (c =? "r")%char
  || (c =? "t")%char || (c =? backslash)%char || (c =? "/")%char
  || (c =? dquote)%char.

(** A scan returns the text it consumed and the text that is left. *)
Definition Scan : Type := option (string * string).

Definition consumed (p : string) (r : Scan) : Scan :=
  match r with
  | Some (c, rest) => Some (p +:+ c, rest)
  | None => None
  end.

Fixpoint skipSpace (s : string) : string * string :=
  match s with
  | String c s' =>
      if isSpace c
      then let '(w, r) := skipSpace s' in (String c w, r)
      else (EmptyString, s)
  | EmptyString => (EmptyString, EmptyString)
  end.

Fixpoint spanDigits (s : string) : string * string :=
  match s with
  | String c s' =>
      if isDigit c
      then let '(d, r) := spanDigits s' in (String c d, r)
      else (EmptyString, s)
  | EmptyString => (EmptyString, EmptyString)
  end.

(** [stateInString], [stateInStringEsc], [stateInStringEscU...]: the text
    after the opening quote, up to and including the closing quote. *)
Fixpoint scanStringBody (s : string) : Scan :=
  match s with
  | EmptyString => None
  | String c s' =>
      if (c =? dquote)%char then Some (String c EmptyString, s')
      else if (c =? backslash)%char then
        match s' with
        | String e s'' =>
            if isSimpleEscape e
            then consumed (String c (String e EmptyString)) (scanStringBody s'')
            else if (e =? "u")%char then
              match s'' with
              | String h1 (String h2 (String h3 (String h4 t))) =>
                  if isHex h1 && isHex h2 && isHex h3 && isHex h4
                  then consumed
                         (String c (String e (String h1 (String h2
                            (String h3 (String h4 EmptyString))))))
                         (scanStringBody t)
                  else None
              | _ => None
              end
            else None
        | EmptyString => None
        end
      else if (N_of_ascii c <? 32)%N then None
      else consumed (String c EmptyString) (scanStringBody s')
  end.

(** [stateE], [stateESign], [stateE0]: an optional exponent. *)
Definition scanExp (s : string) : Scan :=
  match s with
  | String c s' =>
      if (c =? "e")%char || (c =? "E")%char then
        match s' with
        | String g s'' =>
            if (g =? "+")%char || (g =? "-")%char then
              let '(d, r) := spanDigits s'' in
              match d with
              | EmptyString => None
              | _ => Some (String c (String g d), r)
              end
            else
              let '(d, r) := spanDigits s' in
              match d with
              | EmptyString => None
              | _ => Some (String c d, r)
              end
        | EmptyString => None
        end
      else Some (EmptyString, s)
  | EmptyString => Some (EmptyString, s)
  end.

(** [state0], [stateDot], [stateDot0]: an optional fraction, then the
    optional exponent. *)
Definition scanFrac (s : string) : Scan :=
  match s with
  | String c s' =>
      if (c =? ".")%char then
        let '(d, r) := spanDigits s' in
        match d with
        | EmptyString => None
        | _ => consumed (String c d) (scanExp r)
        end
      else scanExp s
  | EmptyString => Some (EmptyString, s)
  end.

(** [stateNeg], [state0], [state1]: the integer part, then the rest. *)
Definition scanInt (s : string) : Scan :=
  match s with
  | String c s' =>
      if (c =? "0")%char then consumed (String c EmptyString) (scanFrac s')
      else if isDigit19 c then
        let '(d, r) := spanDigits s' in
        consumed (String c d) (scanFrac r)
      else None
  | EmptyString => None
  end.

(** [stateT]..., [stateF]..., [stateN]...: the rest of a literal name. *)
Fixpoint scanWord (w s : string) : Scan :=
  match w with
  | EmptyString => Some (EmptyString, s)
  | String a w' =>
      match s with
      | String c s' =>
          if (c =? a)%char then consumed (String c EmptyString) (scanWord w' s')
          else None
      | EmptyString => None
      end
  end.

(** scanner.go, [stateBeginValue]: the first character decides the kind of
    value. *)
Inductive ValueKind : Type :=
| KObject | KArray | KString | KMinus | KZero | KDigit | KTrue | KFalse | KNull.

Definition classify (c : ascii) : option ValueKind :=
  if (c =? "{")%char then Some KObject
  else if (c =? "[")%char then Some KArray
  else if (c =? dquote)%char then Some KString
  else if (c =? "-")%char then Some KMinus
  else if (c =? "0")%char then Some KZero
  else if (c =? "t")%char then Some KTrue
  else if (c =? "f")%char then Some KFalse
  else if (c =? "n")%char then Some KNull
  else if isDigit19 c then Some KDigit
  else None.

(** scanner.go, [maxNestingDepth]. *)
Definition maxNestingDepth : N := 10000.

(** The members of an object as the decoder meets them: the quoted key and
    the raw text of the value. *)
Definition Member : Type := string * string.

Definition ObjScan : Type := option (string * list Member * string).

(** [expect c s]: the text after [c] when [s] starts with [c]. *)
Definition expect (c : ascii) (s : string) : option string :=
  match s with
  | String a r => if (a =? c)%char then Some r else None
  | EmptyString => None
  end.

(** The scanner as a recursive descent.  [scanValue] expects the value at
    the head of the text; [scanMembers] and [scanElements] start where a
    member or an element is due, after the opening bracket or a comma.
    [depth] is the number of open brackets. *)
Fixpoint scanValue (fuel : nat) (depth : N) (s : string) {struct fuel} : Scan :=
  match fuel with
  | O => None
  | S f =>
      match s with
      | EmptyString => None
      | String c s' =>
          match classify c with
          | None => None
          | Some k =>
              consumed (String c EmptyString)
                match k with
                | KObject =>
                    if (maxNestingDepth <? N.succ depth)%N then None
                    else
                      let '(w, r) := skipSpace s' in
                      match expect "}" r with
                      | Some r' => Some (w +:+ "}", r')
                      | None =>
                          match scanMembers f (N.succ depth) s' with
                          | Some (t, _, rest) => Some (t, rest)
                          | None => None
                          end
                      end
                | KArray =>
                    if (maxNestingDepth <? N.succ depth)%N then None
                    else
                      let '(w, r) := skipSpace s' in
                      match expect "]" r with
                      | Some r' => Some (w +:+ "]", r')
                      | None => scanElements f (N.succ depth) s'
                      end
                | KString => scanStringBody s'
                | KMinus => scanInt s'
                | KZero => scanFrac s'
                | KDigit =>
                    let '(d, r) := spanDigits s' in consumed d (scanFrac r)
                | KTrue => scanWord "rue" s'
                | KFalse => scanWord "alse" s'
                | KNull => scanWord "ull" s'
                end
          end
      end
  end

with scanMembers (fuel : nat) (depth : N) (s : string) {struct fuel} : ObjScan :=
  match fuel with
  | O => None
  | S f =>
      let '(w1, s1) := skipSpace s in
      match expect dquote s1 with
      | None => None
      | Some s2 =>
          match scanStringBody s2 with
          | None => None
          | Some (key, s3) =>
              let '(w2, s4) := skipSpace s3 in
              match expect ":" s4 with
              | None => None
              | Some s5 =>
                  let '(w3, s6) := skipSpace s5 in
                  match scanValue f depth s6 with
                  | None => None
                  | Some (v, s7) =>
                      let '(w4, s8) := skipSpace s7 in
                      let pre :=
                        w1 +:+ String dquote key +:+ w2 +:+ ":" +:+ w3 +:+ v +:+ w4 in
                      match expect "," s8 with
                      | Some s9 =>
                          match scanMembers f depth s9 with
                          | Some (t, ms, rest) =>
                              Some (pre +:+ "," +:+ t,
                                    (String dquote key, v) :: ms, rest)
                          | None => None
                          end
                      | None =>
                          match expect "}" s8 with
                          | Some s9 =>
                              Some (pre +:+ "}", [(String dquote key, v)], s9)
                          | None => None
                          end
                      end
                  end
              end
          end
      end
  end

with scanElements (fuel : nat) (depth : N) (s : string) {struct fuel} : Scan :=
  match fuel with
  | O => None
  | S f =>
      let '(w1, s1) := skipSpace s in
      match scanValue f depth s1 with
      | None => None
      | Some (v, s2) =>
          let '(w2, s3) := skipSpace s2 in
          match expect "," s3 with
          | Some s4 =>
              consumed (w1 +:+ v +:+ w2 +:+ ",") (scanElements f depth s4)
          | None =>
              match expect "]" s3 with
              | Some s4 => Some (w1 +:+ v +:+ w2 +:+ "]", s4)
              | None => None
              end
          end
      end
  end.

(** *** decode.go: [unquoteBytes], for the keys of an object *)

Definition hexVal (c : ascii) : N :=
  let n := N_of_ascii c in
  if isDigit c then n - 48
  else if (97 <=? n)%N && (n <=? 102)%N then n - 97 + 10
  else n - 65 + 10.

(** [getu4]: the code unit of a [\uXXXX] escape at the head of the text. *)
Definition getu4 (s : string) : option N :=
  match s with
  | String b (String u (String h1 (String h2 (String h3 (String h4 _))))) =>
      if (b =? backslash)%char && (u =? "u")%char
         && isHex h1 && isHex h2 && isHex h3 && isHex h4
      then Some (((hexVal h1 * 16 + hexVal h2) * 16 + hexVal h3) * 16 + hexVal h4)%N
      else None
  | _ => None
  end.

Definition byte (n : N) : ascii := ascii_of_N (n mod 256).

(** The encoding of U+FFFD, [unicode.ReplacementChar]. *)
Definition replacementChar : string :=
  String (byte 239) (String (byte 191) (String (byte 189) EmptyString)).

(** utf8.EncodeRune. *)
Definition encodeRune (r : N) : string :=
  if (r <=? 127)%N then String (byte r) EmptyString
  else if (r <=? 2047)%N then
    String (byte (192 + r / 64)) (String (byte (128 + r mod 64)) EmptyString)
  else if ((55296 <=? r)%N && (r <=? 57343)%N) || (1114111 <? r)%N then
    replacementChar
  else if (r <=? 65535)%N then
    String (byte (224 + r / 4096))
      (String (byte (128 + (r / 64) mod 64))
         (String (byte (128 + r mod 64)) EmptyString))
  else
    String (byte (240 + r / 262144))
      (String (byte (128 + (r / 4096) mod 64))
         (String (byte (128 + (r / 64) mod 64))
            (String (byte (128 + r mod 64)) EmptyString))).

(** utf16.IsSurrogate and utf16.DecodeRune. *)
Definition isSurrogate (r : N) : bool := (55296 <=? r)%N && (r <? 57344)%N.

Definition decodeSurrogates (r1 : N) (r2 : option N) : option N :=
  match r2 with
  | Some r2 =>
      if (55296 <=? r1)%N && (r1 <? 56320)%N && (56320 <=? r2)%N && (r2 <? 57344)%N
      then Some ((r1 - 55296) * 1024 + (r2 - 56320) + 65536)%N
      else None
  | None => None
  end.

Definition dropS (n : nat) (s : string) : string :=
  String.substring n (String.length s - n) s.

Definition between (lo hi : N) (c : ascii) : bool :=
  (lo <=? N_of_ascii c)%N && (N_of_ascii c <=? hi)%N.

(** utf8.DecodeRune on a text whose first byte is not ASCII: the width of
    the well-formed sequence at the head, or [None] where the decoder
    returns [RuneError] with width 1. *)
Definition utf8Width (s : string) : option nat :=
  match s with
  | String p0 t =>
      let cont := between 128 191 in
      let second (ok : ascii -> bool) (sz : nat) :=
        match t with
        | String b1 t1 =>
            if negb (ok b1) then None
            else if (sz <=? 2)%nat then Some 2%nat
            else
              match t1 with
              | String b2 t2 =>
                  if negb (cont b2) then None
                  else if (sz <=? 3)%nat then Some 3%nat
                  else
                    match t2 with
                    | String b3 _ => if cont b3 then Some 4%nat else None
                    | EmptyString => None
                    end
              | EmptyString => None
              end
        | EmptyString => None
        end in
      if between 194 223 p0 then second cont 2%nat
      else if between 224 224 p0 then second (between 160 191) 3%nat
      else if between 225 236 p0 then second cont 3%nat
      else if between 237 237 p0 then second (between 128 159) 3%nat
      else if between 238 239 p0 then second cont 3%nat
      else if between 240 240 p0 then second (between 144 191) 4%nat
      else if between 241 243 p0 then second cont 4%nat
      else if between 244 244 p0 then second (between 128 143) 4%nat
      else None
  | EmptyString => None
  end.

Definition unescape (e : ascii) : ascii :=
  if (e =? "b")%char then "008"%char
  else if (e =? "f")%char then "012"%char
  else if (e =? "n")%char then "010"%char
  else if (e =? "r")%char then "013"%char
  else if (e =? "t")%char then "009"%char
  else e.

(** [unquoteBytes] on the text after the opening quote; it stops at the
    closing quote. *)
Fixpoint unquoteBody (fuel : nat) (s : string) : string :=
  match fuel with
  | O => EmptyString
  | S f =>
      match s with
      | EmptyString => EmptyString
      | String c s' =>
          if (c =? dquote)%char then EmptyString
          else if (c =? backslash)%char then
            match s' with
            | String e s'' =>
                if (e =? "u")%char then
                  match getu4 s with
                  | Some rr =>
                      if isSurrogate rr then
                        match decodeSurrogates rr (getu4 (dropS 6 s)) with
                        | Some dec => encodeRune dec +:+ unquoteBody f (dropS 12 s)
                        | None => replacementChar +:+ unquoteBody f (dropS 6 s)
                        end
                      else encodeRune rr +:+ unquoteBody f (dropS 6 s)
                  | None => EmptyString
                  end
                else String (unescape e) (unquoteBody f s'')
            | EmptyString => EmptyString
            end
          else if (N_of_ascii c <? 128)%N then String c (unquoteBody f s')
          else
            match utf8Width s with
            | Some sz =>
                String.substring 0 sz s +:+ unquoteBody f (dropS sz s)
            | None => replacementChar +:+ unquoteBody f s'
            end
      end
  end.

(** The key of a member: its quoted text without the quotes, unescaped. *)
Definition unquote (quoted : string) : string :=
  match quoted with
  | String _ body => unquoteBody (String.length body) body
  | EmptyString => EmptyString
  end.

(** *** decode.go: [Unmarshal] into a nil [map[string]json.RawMessage] *)

Inductive Error : Type :=
| SyntaxError
| UnmarshalTypeError.

(** A [json.RawMessage] is the text of the value as it stands in the
    input. *)
Definition RawMessage : Type := string.

Definition onlySpace (s : string) : bool :=
  match snd (skipSpace s) with
  | EmptyString => true
  | _ => false
  end.

(** [d.object]: every member is stored under its unquoted key, a later
    member replacing an earlier one with the same key. *)
Definition storeMembers (ms : list Member) : gmap string RawMessage :=
  foldl (fun m kv => <[unquote (fst kv) := snd kv]> m) ∅ ms.

(** [Unmarshal(data, &m)] for [var m map[string]json.RawMessage]: the map
    after the call (the nil map reads as the empty map) and the error.
    [checkValid] runs first; then an object fills the map, [null] leaves
    it nil, and any other value is a type error. *)
Definition UnmarshalWith (fuel : nat) (data : string)
    : gmap string RawMessage * option Error :=
  let s := snd (skipSpace data) in
  match scanValue fuel 0 s with
  | None => (∅, Some SyntaxError)
  | Some (raw, rest) =>
      if negb (onlySpace rest) then (∅, Some SyntaxError)
      else
        match expect "{" s with
        | Some s' =>
            match expect "}" (snd (skipSpace s')) with
            | Some _ => (∅, None)
            | None =>
                match scanMembers fuel 1 s' with
                | Some (_, ms, _) => (storeMembers ms, None)
                | None => (∅, Some SyntaxError)
                end
            end
        | None =>
            if (raw =? "null")%string then (∅, None)
            else (∅, Some UnmarshalTypeError)
        end
  end.

(** Two steps for every character are enough for the scanner (see
    [UnmarshalWith_enough]). *)
Definition Unmarshal (data : string) : gmap string RawMessage * option Error :=
  UnmarshalWith (S (2 * String.length data)) data.

(** [string(m[key])]: a missing key reads as the nil message, whose
    conversion is the empty string. *)
Definition index (m : gmap string RawMessage) (key : string) : RawMessage :=
  default EmptyString (m !! key).

(** What the examples write with single quotes stands for the same text
    with double quotes. *)
Fixpoint dq (s : string) : string :=
  match s with
  | EmptyString => EmptyString
  | String c s' => String (if (c =? "'")%char then dquote else c) (dq s')
  end.

(** *** What a raw message can look like *)

(** A raw message taken from the input starts with a character that
    begins a JSON value. *)
Definition startsValue (raw : string) : Prop :=
  exists c tl k, raw = String c tl /\ classify c = Some k.

Lemma consumed_head c r raw rest :
  consumed (String c EmptyString) r = Some (raw, rest) ->
  exists tl, raw = String c tl.
Proof.
  destruct r as [[t u]|]; simpl; [|discriminate].
  intros [= <- <-]. by exists t.
Qed.

Lemma scanValue_startsValue fuel depth s raw rest :
  scanValue fuel depth s = Some (raw, rest) -> startsValue raw.
Proof.
  destruct fuel as [|f]; [discriminate|].
  destruct s as [|c s']; [discriminate|].
  cbn [scanValue].
  destruct (classify c) as [k|] eqn:Hk; [|discriminate].
  intros H. apply consumed_head in H as [tl ->].
  by exists c, tl, k.
Qed.

Lemma scanMembers_startsValue fuel :
  forall depth s t ms rest,
    scanMembers fuel depth s = Some (t, ms, rest) ->
    Forall (fun kv : Member => startsValue (snd kv)) ms.
Proof.
  induction fuel as [|f IH]; intros depth s t ms rest; [discriminate|].
  cbn [scanMembers].
  destruct (skipSpace s) as [w1 s1].
  destruct (expect dquote s1) as [s2|]; [|discriminate].
  destruct (scanStringBody s2) as [[key s3]|]; [|discriminate].
  destruct (skipSpace s3) as [w2 s4].
  destruct (expect ":" s4) as [s5|]; [|discriminate].
  destruct (skipSpace s5) as [w3 s6].
  destruct (scanValue f depth s6) as [[v s7]|] eqn:Hv; [|discriminate].
  apply scanValue_startsValue in Hv.
  destruct (skipSpace s7) as [w4 s8].
  destruct (expect "," s8) as [s9|].
  - destruct (scanMembers f depth s9) as [[[t' ms'] rest']|] eqn:Hm;
      [|discriminate].
    intros [= <- <- <-]. constructor; [exact Hv|]. by eapply IH.
  - destruct (expect "}" s8) as [s9|]; [|discriminate].
    intros [= <- <- <-]. by repeat constructor.
Qed.

Lemma storeMembers_startsValue ms :
  Forall (fun kv : Member => startsValue (snd kv)) ms ->
  map_Forall (fun _ raw => startsValue raw) (storeMembers ms).
Proof.
  unfold storeMembers.
  assert (Hgen : forall m : gmap string RawMessage,
             map_Forall (fun _ raw => startsValue raw) m ->
             Forall (fun kv : Member => startsValue (snd kv)) ms ->
             map_Forall (fun _ raw => startsValue raw)
               (foldl (fun m kv => <[unquote (fst kv) := snd kv]> m) m ms)).
  { induction ms as [|kv ms IH]; intros m Hm Hms; [exact Hm|].
    inversion Hms; subst. cbn [foldl]. apply IH; [|assumption].
    by apply map_Forall_insert_2. }
  intros H. apply Hgen; [apply map_Forall_empty | exact H].
Qed.

(** Every message that [Unmarshal] stores is the text of a value. *)
Lemma UnmarshalWith_startsValue fuel data key raw :
  fst (UnmarshalWith fuel data) !! key = Some raw -> startsValue raw.
Proof.
  unfold UnmarshalWith.
  destruct (scanValue _ 0 _) as [[v rest]|]; [|by cbn [fst]; rewrite lookup_empty].
  destruct (negb (onlySpace rest)); [by cbn [fst]; rewrite lookup_empty|].
  destruct (expect "{" _) as [s'|].
  - destruct (expect "}" _); [by cbn [fst]; rewrite lookup_empty|].
    destruct (scanMembers _ 1 s') as [[[t ms] r]|] eqn:Hm;
      [|by cbn [fst]; rewrite lookup_empty].
    cbn [fst]. intros Hk.
    apply scanMembers_startsValue, storeMembers_startsValue in Hm.
    exact (Hm _ _ Hk).
  - destruct (v =? "null")%string; by cbn [fst]; rewrite lookup_empty.
Qed.

Lemma Unmarshal_startsValue data key raw :
  fst (Unmarshal data) !! key = Some raw -> startsValue raw.
Proof. apply UnmarshalWith_startsValue. Qed.

(** [string(m[key])] is empty or the text of a value: never a bare word
    such as [offer]. *)
Lemma index_Unmarshal data key :
  index (fst (Unmarshal data)) key = EmptyString
  \/ startsValue (index (fst (Unmarshal data)) key).
Proof.
  unfold index.
  destruct (fst (Unmarshal data) !! key) as [raw|] eqn:Hk; [|by left].
  right. by eapply Unmarshal_startsValue.
Qed.

(** *** The fuel is enough

    Of two nested calls of the scanner at least one consumes a character,
    so a fuel above twice the length of the text is never used up: more
    fuel gives the same result. *)

Lemma skipSpace_length s :
  String.length (snd (skipSpace s)) <= String.length s.
Proof.
  induction s as [|c s IH]; [done|].
  cbn [skipSpace]. destruct (isSpace c); [|done].
  destruct (skipSpace s) as [w r]. cbn [snd String.length] in *. lia.
Qed.

Lemma spanDigits_length s :
  String.length (snd (spanDigits s)) <= String.length s.
Proof.
  induction s as [|c s IH]; [done|].
  cbn [spanDigits]. destruct (isDigit c); [|done].
  destruct (spanDigits s) as [w r]. cbn [snd String.length] in *. lia.
Qed.

Lemma expect_length c s r :
  expect c s = Some r -> String.length s = S (String.length r).
Proof.
  destruct s as [|a s]; [discriminate|]. cbn [expect].
  destruct (a =? c)%char; [|discriminate]. by intros [= ->].
Qed.

Lemma consumed_Some p r c rest :
  consumed p r = Some (c, rest) -> exists c', r = Some (c', rest).
Proof.
  destruct r as [[c' rest']|]; [|discriminate].
  cbn. intros [= _ <-]. by exists c'.
Qed.

Lemma scanStringBody_length n :
  forall s c r,
    String.length s <= n ->
    scanStringBody s = Some (c, r) -> String.length r < String.length s.
Proof.
  induction n as [|n IH]; intros [|a s] c r Hn; try discriminate;
    cbn [String.length] in Hn; [lia|].
  cbn [scanStringBody].
  destruct (a =? dquote)%char; [intros [= _ <-]; cbn; lia|].
  destruct (a =? backslash)%char.
  - destruct s as [|e s]; [discriminate|].
    destruct (isSimpleEscape e).
    { intros (c' & Hc)%consumed_Some. apply IH in Hc; cbn in *; lia. }
    destruct (e =? "u")%char; [|discriminate].
    destruct s as [|h1 [|h2 [|h3 [|h4 t]]]]; try discriminate.
    destruct (isHex h1 && isHex h2 && isHex h3 && isHex h4); [|discriminate].
    intros (c' & Hc)%consumed_Some. apply IH in Hc; cbn in *; lia.
  - destruct (N_of_ascii a <? 32)%N; [discriminate|].
    intros (c' & Hc)%consumed_Some. apply IH in Hc; cbn in *; lia.
Qed.

Lemma scanExp_length s c r :
  scanExp s = Some (c, r) -> String.length r <= String.length s.
Proof.
  destruct s as [|a s]; [by intros [= _ <-]|].
  cbn [scanExp].
  destruct ((a =? "e")%char || (a =? "E")%char); [|by intros [= _ <-]].
  destruct s as [|g s]; [discriminate|].
  destruct ((g =? "+")%char || (g =? "-")%char).
  - pose proof (spanDigits_length s) as Hd.
    destruct (spanDigits s) as [d r']. destruct d; [discriminate|].
    intros [= _ <-]. cbn in *. lia.
  - pose proof (spanDigits_length (String g s)) as Hd.
    destruct (spanDigits (String g s)) as [d r']. destruct d; [discriminate|].
    intros [= _ <-]. cbn in *. lia.
Qed.

Lemma scanFrac_length s c r :
  scanFrac s = Some (c, r) -> String.length r <= String.length s.
Proof.
  destruct s as [|a s]; [by intros [= _ <-]|].
  cbn [scanFrac].
  destruct (a =? ".")%char; [|apply scanExp_length].
  pose proof (spanDigits_length s) as Hd.
  destruct (spanDigits s) as [d r']. destruct d; [discriminate|].
  intros (c' & Hc%scanExp_length)%consumed_Some. cbn in *. lia.
Qed.

Lemma scanInt_length s c r :
  scanInt s = Some (c, r) -> String.length r <= String.length s.
Proof.
  destruct s as [|a s]; [discriminate|].
  cbn [scanInt].
  destruct (a =? "0")%char.
  { intros (c' & Hc%scanFrac_length)%consumed_Some. cbn. lia. }
  destruct (isDigit19 a); [|discriminate].
  pose proof (spanDigits_length s) as Hd.
  destruct (spanDigits s) as [d r'].
  intros (c' & Hc%scanFrac_length)%consumed_Some. cbn in *. lia.
Qed.

Lemma scanWord_length w :
  forall s c r, scanWord w s = Some (c, r) -> String.length r <= String.length s.
Proof.
  induction w as [|a w IH]; intros s c r; [by intros [= _ <-]|].
  destruct s as [|b s]; [discriminate|].
  cbn [scanWord]. destruct (b =? a)%char; [|discriminate].
  intros (c' & Hc%IH)%consumed_Some. cbn. lia.
Qed.

Lemma scan_length fuel :
  (forall depth s v r,
     scanValue fuel depth s = Some (v, r) -> String.length r < String.length s)
  /\ (forall depth s t ms r,
        scanMembers fuel depth s = Some (t, ms, r) ->
        String.length r < String.length s)
  /\ (forall depth s v r,
        scanElements fuel depth s = Some (v, r) ->
        String.length r < String.length s).
Proof.
  induction fuel as [|f (IHv & IHm & IHe)]; [by repeat split|].
  repeat split.
  - intros depth [|c s] v r; [discriminate|].
    cbn [scanValue]. destruct (classify c) as [k|]; [|discriminate].
    intros (v' & Hv)%consumed_Some. cbn [String.length].
    pose proof (skipSpace_length s) as Hw.
    pose proof (spanDigits_length s) as Hd.
    destruct k.
    + destruct (maxNestingDepth <? N.succ depth)%N; [discriminate|].
      destruct (skipSpace s) as [w r0]. cbn [snd] in Hw.
      destruct (expect "}" r0) as [r1|] eqn:Hx.
      * apply expect_length in Hx. injection Hv as _ <-. lia.
      * destruct (scanMembers f (N.succ depth) s) as [[[t ms] r1]|] eqn:Hm;
          [|discriminate].
        apply IHm in Hm. injection Hv as _ <-. lia.
    + destruct (maxNestingDepth <? N.succ depth)%N; [discriminate|].
      destruct (skipSpace s) as [w r0]. cbn [snd] in Hw.
      destruct (expect "]" r0) as [r1|] eqn:Hx.
      * apply expect_length in Hx. injection Hv as _ <-. lia.
      * apply IHe in Hv. lia.
    + apply (scanStringBody_length _ _ _ _ (le_n _)) in Hv. lia.
    + apply scanInt_length in Hv. lia.
    + apply scanFrac_length in Hv. lia.
    + destruct (spanDigits s) as [d r0]. cbn [snd] in Hd.
      apply consumed_Some in Hv as (c' & Hc%scanFrac_length). lia.
    + apply scanWord_length in Hv. lia.
    + apply scanWord_length in Hv. lia.
    + apply scanWord_length in Hv. lia.
  - intros depth s t ms r. cbn [scanMembers].
    pose proof (skipSpace_length s) as H1.
    destruct (skipSpace s) as [w1 s1]. cbn [snd] in H1.
    destruct (expect dquote s1) as [s2|] eqn:H2; [|discriminate].
    apply expect_length in H2.
    destruct (scanStringBody s2) as [[key s3]|] eqn:H3; [|discriminate].
    apply (scanStringBody_length _ _ _ _ (le_n _)) in H3.
    pose proof (skipSpace_length s3) as H4.
    destruct (skipSpace s3) as [w2 s4]. cbn [snd] in H4.
    destruct (expect ":" s4) as [s5|] eqn:H5; [|discriminate].
    apply expect_length in H5.
    pose proof (skipSpace_length s5) as H6.
    destruct (skipSpace s5) as [w3 s6]. cbn [snd] in H6.
    destruct (scanValue f depth s6) as [[v s7]|] eqn:H7; [|discriminate].
    apply IHv in H7.
    pose proof (skipSpace_length s7) as H8.
    destruct (skipSpace s7) as [w4 s8]. cbn [snd] in H8.
    destruct (expect "," s8) as [s9|] eqn:H9.
    + apply expect_length in H9.
      destruct (scanMembers f depth s9) as [[[t' ms'] r']|] eqn:H10;
        [|discriminate].
      apply IHm in H10. intros [= _ _ <-]. lia.
    + destruct (expect "}" s8) as [s9|] eqn:H10; [|discriminate].
      apply expect_length in H10. intros [= _ _ <-]. lia.
  - intros depth s v r. cbn [scanElements].
    pose proof (skipSpace_length s) as H1.
    destruct (skipSpace s) as [w1 s1]. cbn [snd] in H1.
    destruct (scanValue f depth s1) as [[v1 s2]|] eqn:H2; [|discriminate].
    apply IHv in H2.
    pose proof (skipSpace_length s2) as H3.
    destruct (skipSpace s2) as [w2 s3]. cbn [snd] in H3.
    destruct (expect "," s3) as [s4|] eqn:H4.
    + apply expect_length in H4.
      intros (c' & Hc%IHe)%consumed_Some. lia.
    + destruct (expect "]" s3) as [s4|] eqn:H5; [|discriminate].
      apply expect_length in H5. intros [= _ <-]. lia.
Qed.

Lemma scan_stable fuel :
  forall fuel',
    fuel <= fuel' ->
    (forall depth s,
       2 * String.length s < fuel ->
       scanValue fuel' depth s = scanValue fuel depth s)
    /\ (forall depth s,
          2 * String.length s + 1 < fuel ->
          scanMembers fuel' depth s = scanMembers fuel depth s)
    /\ (forall depth s,
          2 * String.length s + 1 < fuel ->
          scanElements fuel' depth s = scanElements fuel depth s).
Proof.
  induction fuel as [|f IH]; intros fuel' Hle; [repeat split; intros; lia|].
  destruct fuel' as [|f']; [lia|].
  destruct (IH f' ltac:(lia)) as (IHv & IHm & IHe).
  destruct (scan_length f) as (Lv & Lm & Le).
  repeat split.
  - intros depth [|c s] Hs; [done|]. cbn [String.length] in Hs.
    cbn [scanValue]. destruct (classify c) as [k|]; [|done].
    f_equal. destruct k; try done.
    + destruct (maxNestingDepth <? N.succ depth)%N; [done|].
      destruct (skipSpace s) as [w r0]. destruct (expect "}" r0); [done|].
      by rewrite IHm by lia.
    + destruct (maxNestingDepth <? N.succ depth)%N; [done|].
      destruct (skipSpace s) as [w r0]. destruct (expect "]" r0); [done|].
      by rewrite IHe by lia.
  - intros depth s Hs. cbn [scanMembers].
    pose proof (skipSpace_length s) as H1.
    destruct (skipSpace s) as [w1 s1]. cbn [snd] in H1.
    destruct (expect dquote s1) as [s2|] eqn:H2; [|done].
    apply expect_length in H2.
    destruct (scanStringBody s2) as [[key s3]|] eqn:H3; [|done].
    apply (scanStringBody_length _ _ _ _ (le_n _)) in H3.
    pose proof (skipSpace_length s3) as H4.
    destruct (skipSpace s3) as [w2 s4]. cbn [snd] in H4.
    destruct (expect ":" s4) as [s5|] eqn:H5; [|done].
    apply expect_length in H5.
    pose proof (skipSpace_length s5) as H6.
    destruct (skipSpace s5) as [w3 s6]. cbn [snd] in H6.
    rewrite IHv by lia.
    destruct (scanValue f depth s6) as [[v s7]|] eqn:H7; [|done].
    apply Lv in H7.
    pose proof (skipSpace_length s7) as H8.
    destruct (skipSpace s7) as [w4 s8]. cbn [snd] in H8.
    destruct (expect "," s8) as [s9|] eqn:H9; [|done].
    apply expect_length in H9. by rewrite IHm by lia.
  - intros depth s Hs. cbn [scanElements].
    pose proof (skipSpace_length s) as H1.
    destruct (skipSpace s) as [w1 s1]. cbn [snd] in H1.
    rewrite IHv by lia.
    destruct (scanValue f depth s1) as [[v1 s2]|] eqn:H2; [|done].
    apply Lv in H2.
    pose proof (skipSpace_length s2) as H3.
    destruct (skipSpace s2) as [w2 s3]. cbn [snd] in H3.
    destruct (expect "," s3) as [s4|] eqn:H4; [|done].
    apply expect_length in H4. by rewrite IHe by lia.
Qed.

(** [Unmarshal] gives what any larger fuel gives. *)
Lemma UnmarshalWith_enough fuel data :
  2 * String.length data < fuel -> UnmarshalWith fuel data = Unmarshal data.
Proof.
  intros Hf. unfold Unmarshal, UnmarshalWith.
  destruct (scan_stable (S (2 * String.length data)) fuel ltac:(lia)) as (Sv & Sm & _).
  pose proof (skipSpace_length data) as Hs.
  rewrite Sv by lia.
  destruct (scanValue _ 0 _) as [[raw rest]|]; [|done].
  destruct (negb (onlySpace rest)); [done|].
  destruct (expect "{" _) as [s'|] eqn:Hx; [|done].
  apply expect_length in Hx.
  destruct (expect "}" _); [done|].
  by rewrite Sm by lia.
Qed.

End Json.

(** ** encoding/hex and the builtin [copy] *)

Module Hex.

Definition hextable : string := "0123456789abcdef".

Definition digit (n : N) : ascii :=
  match String.get (N.to_nat n) hextable with
  | Some c => c
  | None => "0"%char
  end.

(** [dst[j] = hextable[v>>4]; dst[j+1] = hextable[v&0x0f]]. *)
Definition encodeByte (v : ascii) : string :=
  String (digit (N_of_ascii v / 16))
    (String (digit (N_of_ascii v mod 16)) EmptyString).

Fixpoint EncodeToString (src : string) : string :=
  match src with
  | EmptyString => EmptyString
  | String v src' => encodeByte v +:+ EncodeToString src'
  end.

(** The value of a digit of [hextable], for the proofs only. *)
Definition undigit (c : ascii) : N :=
  let n := N_of_ascii c in
  if (n <=? 57)%N then n - 48 else n - 97 + 10.

Definition decodeByte (s : string) : option ascii :=
  match s with
  | String h (String l _) => Some (ascii_of_N (undigit h * 16 + undigit l))
  | _ => None
  end.

Lemma decode_encodeByte v : decodeByte (encodeByte v) = Some v.
Proof. destruct v as [[] [] [] [] [] [] [] []]; reflexivity. Qed.

Lemma encodeByte_inj v1 v2 : encodeByte v1 = encodeByte v2 -> v1 = v2.
Proof.
  intros H. apply (f_equal decodeByte) in H.
  rewrite !decode_encodeByte in H. congruence.
Qed.

Lemma EncodeToString_inj a :
  forall b, EncodeToString a = EncodeToString b -> a = b.
Proof.
  induction a as [|v a IH]; intros [|u b]; cbn; try discriminate; [done|].
  intros [= H1 H2 H3].
  f_equal; [|by apply IH].
  apply encodeByte_inj. unfold encodeByte. congruence.
Qed.

Lemma EncodeToString_length src :
  String.length (EncodeToString src) = 2 * String.length src.
Proof.
  induction src as [|v src IH]; [done|].
  change (S (S (String.length (EncodeToString src))) = 2 * S (String.length src)).
  rewrite IH. lia.
Qed.

End Hex.

(** [make([]byte, n)]: [n] zero bytes. *)
Fixpoint make (n : nat) : string :=
  match n with
  | O => EmptyString
  | S n' => String "000" (make n')
  end.

(** The builtin [copy(dst, src)]: the destination after the call, its
    length unchanged, its first [min (len dst) (len src)] bytes overwritten. *)
Fixpoint copy (dst src : string) : string :=
  match dst, src with
  | String _ dst', String c src' => String c (copy dst' src')
  | _, _ => dst
  end.

Lemma copy_length dst : forall src, String.length (copy dst src) = String.length dst.
Proof.
  induction dst as [|d dst IH]; intros [|c src]; cbn; try done.
  by rewrite IH.
Qed.

Lemma copy_same_length dst :
  forall src, String.length src = String.length dst -> copy dst src = src.
Proof.
  induction dst as [|d dst IH]; intros [|c src]; cbn; try done.
  intros [= H]. by rewrite IH.
Qed.

Lemma make_length n : String.length (make n) = n.
Proof. induction n as [|n IH]; cbn; [done|]. by rewrite IH. Qed.

(** ** main.go *)

(** *** [randomHex] *)

(** [rand.Read(bytes)] overwrites the buffer with the bytes drawn from the
    system's source of randomness; [drawn] stands for those bytes. *)
Definition randRead (bytes drawn : string) : string := copy bytes drawn.

Definition randomHex (n : nat) (drawn : string) : string :=
  let bytes := make n in
  let bytes := randRead bytes drawn in
  Hex.EncodeToString bytes.

Example randomHex_abc : randomHex 6 "abcdef" = "616263646566".
Proof. reflexivity. Qed.

(** *** The collaborators: pion/webrtc and gorilla/websocket

    Only what [main.go] calls.  A Go [error] is its text, [None] for nil. *)

Definition error : Type := option string.

(** webrtc.SessionDescription: [Type] and [SDP]. *)
Record SessionDescription : Type := mkSessionDescription {
  sdType : string;
  sdSDP : string;
}.

(** webrtc.ICECandidateInit. *)
Record ICECandidateInit : Type := mkICECandidateInit {
  Candidate : string;
  SDPMid : option string;
  SDPMLineIndex : option N;
  UsernameFragment : option string;
}.

Inductive PeerConnectionState : Type :=
| PeerConnectionStateNew
| PeerConnectionStateConnecting
| PeerConnectionStateConnected
| PeerConnectionStateDisconnected
| PeerConnectionStateFailed
| PeerConnectionStateClosed.

(** The negotiation calls of a [*webrtc.PeerConnection], over a state [E] of
    the library's own: each call returns the new state and its result. *)
Class PeerConnectionAPI (E : Type) : Type := {
  SetRemoteDescription : SessionDescription -> E -> E * error;
  CreateAnswer : E -> E * (string + SessionDescription);
  SetLocalDescription : SessionDescription -> E -> E * error;
  AddICECandidate : ICECandidateInit -> E -> E * error;
}.

(** The frames the server writes to the websocket. *)
Inductive OutFrame : Type :=
| FrameAnswer (sdp : SessionDescription)
    (* {"type":"answer","sdp":answer} *)
| FrameCandidate (candidate : string) (sdpMid : option string)
    (sdpMLineIndex : option N)
    (* {"type":"candidate","candidate":..,"sdpMid":..,"sdpMLineIndex":..} *)
| FrameError (msg : string).
    (* {"error":msg} *)

(** What a signaling loop works on: the endpoint, the frames written to the
    websocket so far, the lines printed by [log], and whether the
    candidate handler is installed. *)
Record Sig (E : Type) : Type := mkSig {
  pc : E;
  sent : list OutFrame;
  logged : list string;
  onICE : bool;
}.
Arguments mkSig {E}.
Arguments pc {E}.
Arguments sent {E}.
Arguments logged {E}.
Arguments onICE {E}.

(** [json.Unmarshal] of a payload into a [webrtc.SessionDescription] and a
    [webrtc.ICECandidateInit]: [None] when it returns an error. *)
Class PayloadDecoders : Type := {
  unmarshalSessionDescription : Json.RawMessage -> option SessionDescription;
  unmarshalICECandidateInit : Json.RawMessage -> option ICECandidateInit;
}.

Section Signaling.

Context {E : Type} {api : PeerConnectionAPI E} {dec : PayloadDecoders}.

Definition setPC (e : E) (s : Sig E) : Sig E :=
  mkSig e (sent s) (logged s) (onICE s).

Definition println (line : string) (s : Sig E) : Sig E :=
  mkSig (pc s) (sent s) (logged s ++ [line]) (onICE s).

Definition writeJSON (f : OutFrame) (s : Sig E) : Sig E :=
  mkSig (pc s) (sent s ++ [f]) (logged s) (onICE s).

(** The handler given to [pc.OnICECandidate]; [c] is [c.ToJSON()], [None]
    for the nil candidate. *)
Definition onICECandidate (c : option ICECandidateInit) (s : Sig E) : Sig E :=
  match c with
  | None => s
  | Some c => writeJSON (FrameCandidate (Candidate c) (SDPMid c) (SDPMLineIndex c)) s
  end.

(** The [switch msgType] of [handleSignaling]. *)
Definition dispatch (isBroadcaster : bool) (msgType : string)
    (msgMap : gmap string Json.RawMessage) (s : Sig E) : Sig E :=
  if (msgType =? "offer")%string then
    if negb isBroadcaster then s
    else
      match unmarshalSessionDescription (Json.index msgMap "sdp") with
      | None => s
      | Some offer =>
          let '(e1, err) := SetRemoteDescription offer (pc s) in
          match err with
          | Some e => println ("SetRemoteDescription error: " +:+ e) (setPC e1 s)
          | None =>
              let '(e2, r) := CreateAnswer e1 in
              match r with
              | inl e => println ("CreateAnswer error: " +:+ e) (setPC e2 s)
              | inr answer =>
                  let '(e3, err) := SetLocalDescription answer e2 in
                  let s3 :=
                    match err with
                    | Some e =>
                        println ("SetLocalDescription error: " +:+ e) (setPC e3 s)
                    | None => setPC e3 s
                    end in
                  writeJSON (FrameAnswer answer) s3
              end
          end
      end
  else if (msgType =? "answer")%string then
    if isBroadcaster then s
    else
      match unmarshalSessionDescription (Json.index msgMap "sdp") with
      | None => s
      | Some answer => setPC (fst (SetRemoteDescription answer (pc s))) s
      end
  else if (msgType =? "candidate")%string then
    match unmarshalICECandidateInit (Json.index msgMap "candidate") with
    | None => s
    | Some candidate => setPC (fst (AddICECandidate candidate (pc s))) s
    end
  else s.

(** One turn of the loop of [handleSignaling], for a message that was
    read. *)
Definition handleMessage (isBroadcaster : bool) (msg : string) (s : Sig E) : Sig E :=
  let '(msgMap, err) := Json.Unmarshal msg in
  match err with
  | Some _ => s
  | None =>
      let msgType := Json.index msgMap "type" in
      dispatch isBroadcaster msgType msgMap s
  end.

(** [handleSignaling]: the messages read, in order, until [ws.ReadMessage]
    fails with [readErr]. *)
Definition handleSignaling (isBroadcaster : bool) (inbound : list string)
    (readErr : string) (s : Sig E) : Sig E :=
  let s := mkSig (pc s) (sent s) (logged s) true in
  let s := foldl (fun s msg => handleMessage isBroadcaster msg s) s inbound in
  println ("WebSocket read error: " +:+ readErr) s.

(** No message ever selects a case of the switch: the tag is the raw text
    of a JSON value, which is never one of the bare words. *)
Lemma msgType_no_case msg :
  let msgType := Json.index (fst (Json.Unmarshal msg)) "type" in
  msgType <> "offer" /\ msgType <> "answer" /\ msgType <> "candidate".
Proof.
  cbn zeta.
  destruct (Json.index_Unmarshal msg "type") as [-> | (c & tl & k & -> & Hk)].
  - repeat split; discriminate.
  - repeat split; intros [= -> _]; vm_compute in Hk; discriminate.
Qed.

Lemma dispatch_no_case isBroadcaster msgType msgMap s :
  msgType <> "offer" -> msgType <> "answer" -> msgType <> "candidate" ->
  dispatch isBroadcaster msgType msgMap s = s.
Proof.
  intros H1 H2 H3. unfold dispatch.
  destruct (String.eqb_spec msgType "offer"); [done|].
  destruct (String.eqb_spec msgType "answer"); [done|].
  destruct (String.eqb_spec msgType "candidate"); done.
Qed.

Lemma handleMessage_inert isBroadcaster msg s :
  handleMessage isBroadcaster msg s = s.
Proof.
  unfold handleMessage.
  pose proof (msgType_no_case msg) as (H1 & H2 & H3).
  destruct (Json.Unmarshal msg) as [msgMap [e|]]; [done|].
  by apply dispatch_no_case.
Qed.

End Signaling.

(** *** The stripped variant of the server

    The second Go file of the repository repeats [main.go] in a "minimum
    working version": [randomHex] cuts the hex text to [n] characters and
    [handleSignaling] has neither role guards nor a candidate case, and
    ignores every error. *)

Module Minimal.

(** [hex.EncodeToString(b)[:n]]. *)
Definition randomHex (n : nat) (drawn : string) : string :=
  let b := make n in
  let b := randRead b drawn in
  String.substring 0 n (Hex.EncodeToString b).

(** The zero [webrtc.SessionDescription], left in place by an [Unmarshal]
    or a [CreateAnswer] whose error is ignored. *)
Definition zeroSessionDescription : SessionDescription :=
  mkSessionDescription EmptyString EmptyString.

Section Handlers.

Context {E : Type} {api : PeerConnectionAPI E} {dec : PayloadDecoders}.

(** One turn of the loop of the variant's [handleSignaling]. *)
Definition handleMessage (broadcaster : bool) (msg : string) (s : Sig E) : Sig E :=
  let m := fst (Json.Unmarshal msg) in
  let t := Json.index m "type" in
  if (t =? "offer")%string || (t =? "answer")%string then
    let sdp :=
      default zeroSessionDescription
        (unmarshalSessionDescription (Json.index m "sdp")) in
    if (t =? "offer")%string then
      let e1 := fst (SetRemoteDescription sdp (pc s)) in
      let '(e2, r) := CreateAnswer e1 in
      let ans := match r with inr a => a | inl _ => zeroSessionDescription end in
      let e3 := fst (SetLocalDescription ans e2) in
      mkSig e3 (sent s ++ [FrameAnswer ans]) (logged s) (onICE s)
    else
      mkSig (fst (SetRemoteDescription sdp (pc s))) (sent s) (logged s) (onICE s)
  else s.

(** The variant compares the raw text of the tag with the bare words as
    well: no frame enters its [if]. *)
Lemma minimal_handleMessage_inert broadcaster msg (s : Sig E) :
  handleMessage broadcaster msg s = s.
Proof.
  unfold handleMessage.
  pose proof (msgType_no_case msg) as (H1 & H2 & _). cbn zeta in H1, H2.
  destruct (String.eqb_spec (Json.index (fst (Json.Unmarshal msg)) "type") "offer");
    [done|].
  by destruct (String.eqb_spec (Json.index (fst (Json.Unmarshal msg)) "type") "answer").
Qed.

End Handlers.

(** Five characters of hex text hold two and a half bytes: draws that
    differ later give the same identifier. *)
Example minimal_randomHex_collision :
  randomHex 5 "abcde" = "61626"
  /\ randomHex 5 "abcXY" = "61626".
Proof. by vm_compute. Qed.

End Minimal.

(** *** Rooms and the registry *)

(** A [*webrtc.PeerConnection] and a [*Room] are positions in the stores of
    the [World] below. *)
Definition PC : Type := nat.
Definition RoomRef : Type := nat.

(** [type Room struct]; [Listeners] is a [map[*webrtc.PeerConnection]bool]
    used as a set.  The mutex is part of the interleaving model further
    down. *)
Record Room : Type := mkRoom {
  Name : string;
  Broadcaster : option PC;
  Listeners : gset PC;
}.

(** [&Room{Name: roomID, Listeners: make(...)}]. *)
Definition newRoom (roomID : string) : Room := mkRoom roomID None ∅.

(** A [*webrtc.TrackRemote]. *)
Record TrackRemote : Type := mkTrack {
  trackID : string;
  trackStreamID : string;
  trackCapability : string;
  trackKind : string;
}.

Global Instance TrackRemote_eq_dec : EqDecision TrackRemote.
Proof. solve_decision. Defined.

(** What one read of a track gives [forwardTrack]: the count returned by
    [ReadRTP], and what [Payload()] and [Duration()] return after it. *)
Record Frame : Type := mkFrame {
  frameN : Z;
  framePayload : string;
  frameDuration : Z;
}.

(** The transceivers [joinRoom] adds. *)
Inductive Transceiver : Type :=
| AudioDefault
| AudioRecvonly.

(** One call of [joinRoom] that obtained a peer connection: the connection,
    its websocket, and what the handler captured. *)
Record Session (E : Type) : Type := mkSession {
  sRoom : RoomRef;
  sBroadcaster : bool;
  sPC : E;
  sSent : list OutFrame;
  sTransceivers : list Transceiver;
  sOnTrack : bool;
  sOnConnectionStateChange : bool;
  sOnICE : bool;
  sRunning : bool;
  sPCClosed : bool;
  sWSClosed : bool;
}.
Arguments mkSession {E}.
Arguments sRoom {E}.
Arguments sBroadcaster {E}.
Arguments sPC {E}.
Arguments sSent {E}.
Arguments sTransceivers {E}.
Arguments sOnTrack {E}.
Arguments sOnConnectionStateChange {E}.
Arguments sOnICE {E}.
Arguments sRunning {E}.
Arguments sPCClosed {E}.
Arguments sWSClosed {E}.

(** The process: the package variable [rooms], the rooms and the peer
    connections allocated so far, the lines printed by [log], the
    [forwardTrack] goroutines started, and the frames they forwarded. *)
Record World (E : Type) : Type := mkWorld {
  rooms : gmap string RoomRef;
  heap : list Room;
  sessions : list (Session E);
  logs : list string;
  forwards : list (TrackRemote * PC);
  delivered : list (PC * TrackRemote * Frame);
}.
Arguments mkWorld {E}.
Arguments rooms {E}.
Arguments heap {E}.
Arguments sessions {E}.
Arguments logs {E}.
Arguments forwards {E}.
Arguments delivered {E}.

Definition emptyWorld {E : Type} : World E := mkWorld ∅ [] [] [] [] [].

(** The body of the response of [/create]. *)
Record CreateResponse : Type := mkCreateResponse {
  respRoom : string;
  respURL : string;
}.

(** How a call of [joinRoom] went. *)
Inductive JoinResult : Type :=
| HttpError (status : nat) (contentType body : string)
| UpgradeError
| PeerConnectionError
| AlreadyBroadcasting (p : PC)
| TransceiverError (p : PC)
| Started (p : PC).

(** What the environment decides in a call of [joinRoom]. *)
Record JoinRequest (E : Type) : Type := mkJoinRequest {
  path : string;
  role : string;
  upgradeErr : error;
  newPeerConnection : string + E;
  transceiverErr : error;
}.
Arguments mkJoinRequest {E}.
Arguments path {E}.
Arguments role {E}.
Arguments upgradeErr {E}.
Arguments newPeerConnection {E}.
Arguments transceiverErr {E}.

(** [r.URL.Path[len("/join/"):]]. *)
Definition roomNameOf (p : string) : string :=
  String.substring 6 (String.length p - 6) p.

Definition newline : string := String "010" EmptyString.

(** *** [forwardTrack] *)

(** A [webrtc.Sample] as [forwardTrack] fills it. *)
Record Sample : Type := mkSample {
  Data : string;
  Duration : Z;
}.

(** How a goroutine ends: it returns, or a run-time panic stops it. *)
Inductive Exit : Type :=
| Returned
| Panicked.

(** [buf[:n]]: a run-time panic unless [0 <= n <= cap(buf)]; the capacity
    of [rtpBuf] is its length. *)
Definition sliceTo (buf : string) (n : Z) : option string :=
  if (0 <=? n)%Z && (n <=? Z.of_nat (String.length buf))%Z
  then Some (String.substring 0 (Z.to_nat n) buf)
  else None.

(** The loop of lines 168-176 over the reads of the track, the last read
    being the one that fails: the samples written and how the loop ends. *)
Fixpoint forwardLoop (rtpBuf : string) (reads : list Frame) : list Sample * Exit :=
  match reads with
  | [] => ([], Returned)
  | f :: reads' =>
      let rtpBuf := copy rtpBuf (framePayload f) in
      match sliceTo rtpBuf (frameN f) with
      | None => ([], Panicked)
      | Some data =>
          let '(samples, e) := forwardLoop rtpBuf reads' in
          (mkSample data (frameDuration f) :: samples, e)
      end
  end.

(** [forwardTrack]; [newTrackErr] and [addTrackErr] are the errors of
    [NewTrackLocalStaticSample] and [AddTrack]. *)
Definition forwardTrack (newTrackErr addTrackErr : error) (reads : list Frame)
    : list Sample * Exit :=
  match newTrackErr with
  | Some _ => ([], Returned)
  | None =>
      match addTrackErr with
      | Some _ => ([], Returned)
      | None =>
          let rtpBuf := make 1400 in
          forwardLoop rtpBuf reads
      end
  end.

Definition sampleOf (f : Frame) : Sample :=
  mkSample (framePayload f) (frameDuration f).

(** *** The broadcaster branch of [joinRoom], statement by statement

    Lines 87-102 for several requests on one room at once.  Each request is
    a goroutine; a step runs the next statement of one of them. *)

Module Attach.

(** Where a goroutine stands. *)
Inductive Point : Type :=
| AtCheck         (* line 88: if room.Broadcaster != nil *)
| AtTransceiver   (* line 94: pc.AddTransceiverFromKind *)
| AtLock          (* line 100: room.mu.Lock() *)
| AtStore         (* line 101: room.Broadcaster = pc *)
| AtUnlock        (* line 102: room.mu.Unlock() *)
| Attached        (* line 105 and on: wired as the broadcaster *)
| Rejected        (* line 89-90: the error frame was written *)
| Failed.         (* line 96-97 *)

Global Instance Point_eq_dec : EqDecision Point.
Proof. solve_decision. Defined.

Record Attempt : Type := mkAttempt {
  aPC : PC;
  aTransceiverErr : error;
  aPoint : Point;
  aSent : list OutFrame;
}.

(** The room, the goroutine that holds [room.mu] if one does, and the
    goroutines. *)
Record Sys : Type := mkSys {
  room : Room;
  mu : option nat;
  attempts : list Attempt;
}.

Definition at_ (pt : Point) (a : Attempt) : Attempt :=
  mkAttempt (aPC a) (aTransceiverErr a) pt (aSent a).

(** The next statement of goroutine [i]; [None] when it cannot run: the
    goroutine has finished its branch, or waits for the mutex. *)
Definition stepOf (i : nat) (s : Sys) : option Sys :=
  match attempts s !! i with
  | None => None
  | Some a =>
      let move (a' : Attempt) (r : Room) (m : option nat) :=
        Some (mkSys r m (<[i := a']> (attempts s))) in
      match aPoint a with
      | AtCheck =>
          match Broadcaster (room s) with
          | Some _ =>
              move (mkAttempt (aPC a) (aTransceiverErr a) Rejected
                      (aSent a ++ [FrameError "Room already has a broadcaster"]))
                (room s) (mu s)
          | None => move (at_ AtTransceiver a) (room s) (mu s)
          end
      | AtTransceiver =>
          match aTransceiverErr a with
          | Some _ => move (at_ Failed a) (room s) (mu s)
          | None => move (at_ AtLock a) (room s) (mu s)
          end
      | AtLock =>
          match mu s with
          | Some _ => None
          | None => move (at_ AtStore a) (room s) (Some i)
          end
      | AtStore =>
          move (at_ AtUnlock a)
            (mkRoom (Name (room s)) (Some (aPC a)) (Listeners (room s))) (mu s)
      | AtUnlock => move (at_ Attached a) (room s) None
      | Attached | Rejected | Failed => None
      end
  end.

(** A schedule names the goroutine of each step. *)
Fixpoint runSchedule (sched : list nat) (s : Sys) : option Sys :=
  match sched with
  | [] => Some s
  | i :: sched' =>
      match stepOf i s with
      | Some s' => runSchedule sched' s'
      | None => None
      end
  end.

(** [n] requests with [role=broadcaster] arrive at a room: connections
    [0..n-1], none of them failing to add its transceiver. *)
Definition arrive (r : Room) (n : nat) : Sys :=
  mkSys r None (map (fun p => mkAttempt p None AtCheck []) (seq 0 n)).

Definition countAt (pt : Point) (s : Sys) : nat :=
  length (filter (fun a => aPoint a = pt) (attempts s)).

End Attach.

(** The frame of the first end-to-end scenario: an offer with a session
    description. *)
Definition offerFrame : string :=
  Json.dq "{'type':'offer','sdp':{'type':'offer','sdp':'v=0'}}".

(** *** The handlers over the process state *)

Section Server.

Context {E : Type} {api : PeerConnectionAPI E} {dec : PayloadDecoders}.

Definition withRooms (r : gmap string RoomRef) (w : World E) : World E :=
  mkWorld r (heap w) (sessions w) (logs w) (forwards w) (delivered w).
Definition withHeap (h : list Room) (w : World E) : World E :=
  mkWorld (rooms w) h (sessions w) (logs w) (forwards w) (delivered w).
Definition withSessions (s : list (Session E)) (w : World E) : World E :=
  mkWorld (rooms w) (heap w) s (logs w) (forwards w) (delivered w).
Definition withLogs (l : list string) (w : World E) : World E :=
  mkWorld (rooms w) (heap w) (sessions w) l (forwards w) (delivered w).
Definition withForwards (f : list (TrackRemote * PC)) (w : World E) : World E :=
  mkWorld (rooms w) (heap w) (sessions w) (logs w) f (delivered w).
Definition withDelivered (d : list (PC * TrackRemote * Frame)) (w : World E) : World E :=
  mkWorld (rooms w) (heap w) (sessions w) (logs w) (forwards w) d.

Definition logPrintln (line : string) (w : World E) : World E :=
  withLogs (logs w ++ [line]) w.

Definition updRoom (r : RoomRef) (f : Room -> Room) (w : World E) : World E :=
  withHeap (alter f r (heap w)) w.

Definition updSession (p : PC) (f : Session E -> Session E) (w : World E) : World E :=
  withSessions (alter f p (sessions w)) w.

(** [createRoom]; [drawn] is what [rand.Read] delivers. *)
Definition createRoom (drawn : string) (w : World E) : World E * CreateResponse :=
  let roomID := randomHex 6 drawn in
  let ref := length (heap w) in
  let w := withRooms (<[roomID := ref]> (rooms w))
             (withHeap (heap w ++ [newRoom roomID]) w) in
  (w, mkCreateResponse roomID ("https://your-app.fly.dev/r/" +:+ roomID)).

(** Setters of [Room]. *)
Definition setBroadcaster (p : PC) (r : Room) : Room :=
  mkRoom (Name r) (Some p) (Listeners r).
Definition addListener (p : PC) (r : Room) : Room :=
  mkRoom (Name r) (Broadcaster r) ({[p]} ∪ Listeners r).
Definition deleteListener (p : PC) (r : Room) : Room :=
  mkRoom (Name r) (Broadcaster r) (Listeners r ∖ {[p]}).

(** Setters of [Session]. *)
Definition sessWriteJSON (f : OutFrame) (s : Session E) : Session E :=
  mkSession (sRoom s) (sBroadcaster s) (sPC s) (sSent s ++ [f]) (sTransceivers s)
    (sOnTrack s) (sOnConnectionStateChange s) (sOnICE s) (sRunning s)
    (sPCClosed s) (sWSClosed s).
Definition sessAddTransceiver (t : Transceiver) (s : Session E) : Session E :=
  mkSession (sRoom s) (sBroadcaster s) (sPC s) (sSent s) (sTransceivers s ++ [t])
    (sOnTrack s) (sOnConnectionStateChange s) (sOnICE s) (sRunning s)
    (sPCClosed s) (sWSClosed s).
Definition sessOnTrack (s : Session E) : Session E :=
  mkSession (sRoom s) (sBroadcaster s) (sPC s) (sSent s) (sTransceivers s)
    true (sOnConnectionStateChange s) (sOnICE s) (sRunning s)
    (sPCClosed s) (sWSClosed s).
Definition sessOnConnectionStateChange (s : Session E) : Session E :=
  mkSession (sRoom s) (sBroadcaster s) (sPC s) (sSent s) (sTransceivers s)
    (sOnTrack s) true (sOnICE s) (sRunning s) (sPCClosed s) (sWSClosed s).
Definition sessRunning (b : bool) (s : Session E) : Session E :=
  mkSession (sRoom s) (sBroadcaster s) (sPC s) (sSent s) (sTransceivers s)
    (sOnTrack s) (sOnConnectionStateChange s) (sOnICE s) b
    (sPCClosed s) (sWSClosed s).
(** Entering [handleSignaling]: the candidate handler is installed and the
    loop waits for its first message. *)
Definition sessStart (s : Session E) : Session E :=
  mkSession (sRoom s) (sBroadcaster s) (sPC s) (sSent s) (sTransceivers s)
    (sOnTrack s) (sOnConnectionStateChange s) true true
    (sPCClosed s) (sWSClosed s).
Definition sessClosePC (s : Session E) : Session E :=
  mkSession (sRoom s) (sBroadcaster s) (sPC s) (sSent s) (sTransceivers s)
    (sOnTrack s) (sOnConnectionStateChange s) (sOnICE s) (sRunning s)
    true (sWSClosed s).
Definition sessCloseWS (s : Session E) : Session E :=
  mkSession (sRoom s) (sBroadcaster s) (sPC s) (sSent s) (sTransceivers s)
    (sOnTrack s) (sOnConnectionStateChange s) (sOnICE s) (sRunning s)
    (sPCClosed s) true.

(** The handler given to [pc.OnConnectionStateChange] by a listener
    (lines 138-144); it captured [room] and [pc]. *)
Definition onConnectionStateChange (room : RoomRef) (p : PC)
    (s : PeerConnectionState) (w : World E) : World E :=
  match s with
  | PeerConnectionStateClosed | PeerConnectionStateFailed =>
      updRoom room (deleteListener p) w
  | _ => w
  end.

(** The connection of [p] changes state: its handler runs if one is
    installed. *)
Definition connectionState (p : PC) (s : PeerConnectionState) (w : World E) : World E :=
  match sessions w !! p with
  | Some ss =>
      if sOnConnectionStateChange ss
      then onConnectionStateChange (sRoom ss) p s w
      else w
  | None => w
  end.

(** The deferred [pc.Close()]: the connection becomes closed, which its
    state handler is told. *)
Definition pcClose (p : PC) (w : World E) : World E :=
  connectionState p PeerConnectionStateClosed (updSession p sessClosePC w).

(** The deferred [ws.Close()]. *)
Definition wsClose (p : PC) (w : World E) : World E :=
  updSession p sessCloseWS w.

(** The deferred calls of a [joinRoom] that has a peer connection, in the
    order they run. *)
Definition deferred (p : PC) (w : World E) : World E :=
  wsClose p (pcClose p w).

(** The handler given to [pc.OnTrack] by a broadcaster (lines 105-122): one
    [forwardTrack] goroutine for every listener in the room now. *)
Definition onTrack (room : RoomRef) (track : TrackRemote) (w : World E) : World E :=
  let w := logPrintln ("Broadcaster sent track: " +:+ trackKind track) w in
  match heap w !! room with
  | Some r =>
      withForwards
        (forwards w ++ ((fun listener => (track, listener)) <$> elements (Listeners r))) w
  | None => w
  end.

(** [room.Broadcaster], read through the pointer. *)
Definition broadcasterOf (room : RoomRef) (w : World E) : option PC :=
  match heap w !! room with
  | Some r => Broadcaster r
  | None => None
  end.

Definition listenersOf (room : RoomRef) (w : World E) : gset PC :=
  match heap w !! room with
  | Some r => Listeners r
  | None => ∅
  end.

(** The signaling state of a session, and its write-back. *)
Definition sigOf (ss : Session E) (w : World E) : Sig E :=
  mkSig (sPC ss) (sSent ss) (logs w) (sOnICE ss).

Definition sessSig (sg : Sig E) (ss : Session E) : Session E :=
  mkSession (sRoom ss) (sBroadcaster ss) (pc sg) (sent sg) (sTransceivers ss)
    (sOnTrack ss) (sOnConnectionStateChange ss) (onICE sg) (sRunning ss)
    (sPCClosed ss) (sWSClosed ss).

Definition putSig (p : PC) (sg : Sig E) (w : World E) : World E :=
  withLogs (logged sg) (updSession p (sessSig sg) w).

(** [joinRoom] from its first line until [handleSignaling] waits for its
    first message (lines 53-147 and 181-192); where it returns early, its
    deferred calls have run. *)
Definition joinSetup (req : JoinRequest E) (w : World E) : World E * JoinResult :=
  let roomName := roomNameOf (path req) in
  match rooms w !! roomName with
  | None =>
      (w, HttpError 404 "text/plain; charset=utf-8" ("Room not found" +:+ newline))
  | Some room =>
      match upgradeErr req with
      | Some e => (logPrintln ("Upgrade error: " +:+ e) w, UpgradeError)
      | None =>
          match newPeerConnection req with
          | inl e =>
              (logPrintln ("PeerConnection error: " +:+ e) w, PeerConnectionError)
          | inr e0 =>
              let p := length (sessions w) in
              let isBroadcaster := (role req =? "broadcaster")%string in
              let w :=
                withSessions
                  (sessions w ++
                   [mkSession room isBroadcaster e0 [] [] false false false false
                      false false]) w in
              if isBroadcaster then
                match broadcasterOf room w with
                | Some _ =>
                    let w :=
                      updSession p
                        (sessWriteJSON (FrameError "Room already has a broadcaster")) w in
                    (deferred p w, AlreadyBroadcasting p)
                | None =>
                    match transceiverErr req with
                    | Some e =>
                        (deferred p (logPrintln ("AddTransceiver error: " +:+ e) w),
                         TransceiverError p)
                    | None =>
                        let w := updSession p (sessAddTransceiver AudioDefault) w in
                        let w := updRoom room (setBroadcaster p) w in
                        let w := updSession p sessOnTrack w in
                        (updSession p sessStart w, Started p)
                    end
                end
              else
                match transceiverErr req with
                | Some e =>
                    (deferred p
                       (logPrintln ("Listener AddTransceiver error: " +:+ e) w),
                     TransceiverError p)
                | None =>
                    let w := updSession p (sessAddTransceiver AudioRecvonly) w in
                    let w := updRoom room (addListener p) w in
                    let w := updSession p sessOnConnectionStateChange w in
                    (updSession p sessStart w, Started p)
                end
          end
      end
  end.

(** The call [handleSignaling(ws, pc, room, isBroadcaster)] of line 147 for
    the session [p], and the return of [joinRoom] after it. *)
Definition runSignaling (p : PC) (inbound : list string) (readErr : string)
    (w : World E) : World E :=
  match sessions w !! p with
  | Some ss =>
      let sg :=
        handleSignaling (sBroadcaster ss) inbound readErr (sigOf ss w) in
      updSession p (sessRunning false) (putSig p sg w)
  | None => w
  end.

(** [joinRoom], run from the request to its return: [inbound] are the
    messages the websocket delivers before its read fails with [readErr]. *)
Definition joinRoom (req : JoinRequest E) (inbound : list string)
    (readErr : string) (w : World E) : World E * JoinResult :=
  let '(w1, r) := joinSetup req w in
  match r with
  | Started p => (deferred p (runSignaling p inbound readErr w1), r)
  | _ => (w1, r)
  end.

(** *** The server as a transition system

    Requests and callbacks of different connections interleave; each event
    below is one of them. *)
Inductive Event : Type :=
| EvCreate (drawn : string)
| EvJoin (req : JoinRequest E)
| EvMessage (p : PC) (msg : string)
| EvReadError (p : PC) (readErr : string)
| EvICECandidate (p : PC) (c : option ICECandidateInit)
| EvConnectionState (p : PC) (s : PeerConnectionState)
| EvTrack (p : PC) (track : TrackRemote)
| EvRTP (track : TrackRemote) (listener : PC) (f : Frame).

Definition step (ev : Event) (w : World E) : World E :=
  match ev with
  | EvCreate drawn => fst (createRoom drawn w)
  | EvJoin req => fst (joinSetup req w)
  | EvMessage p msg =>
      match sessions w !! p with
      | Some ss =>
          if sRunning ss then
            putSig p (handleMessage (sBroadcaster ss) msg (sigOf ss w)) w
          else w
      | None => w
      end
  | EvReadError p readErr =>
      match sessions w !! p with
      | Some ss =>
          if sRunning ss then
            deferred p
              (updSession p (sessRunning false)
                 (logPrintln ("WebSocket read error: " +:+ readErr) w))
          else w
      | None => w
      end
  | EvICECandidate p c =>
      match sessions w !! p with
      | Some ss =>
          if sOnICE ss && negb (sWSClosed ss)
          then putSig p (onICECandidate c (sigOf ss w)) w
          else w
      | None => w
      end
  | EvConnectionState p s => connectionState p s w
  | EvTrack p track =>
      match sessions w !! p with
      | Some ss => if sOnTrack ss then onTrack (sRoom ss) track w else w
      | None => w
      end
  | EvRTP track listener f =>
      if bool_decide ((track, listener) ∈ forwards w)
      then withDelivered (delivered w ++ [(listener, track, f)]) w
      else w
  end.

Definition run (evs : list Event) (w : World E) : World E :=
  foldl (fun w ev => step ev w) w evs.

(** The identifiers returned by the [createRoom] calls of a trace that
    starts in [w]. *)
Fixpoint returnedIDs (evs : list Event) (w : World E) : list string :=
  match evs with
  | [] => []
  | ev :: evs' =>
      match ev with
      | EvCreate drawn => [respRoom (snd (createRoom drawn w))]
      | _ => []
      end ++ returnedIDs evs' (step ev w)
  end.

(** *** Invariants of the process state *)

(** Pointers stored in the state point into the stores: the registry names
    allocated rooms, one name per room; listeners and forwarding goroutines
    are allocated connections; every forwarded frame was forwarded by a
    goroutine that exists. *)
Record wf (w : World E) : Prop := mkWf {
  wf_rooms_bound :
    forall name ref, rooms w !! name = Some ref -> ref < length (heap w);
  wf_rooms_inj :
    forall n1 n2 ref,
      rooms w !! n1 = Some ref -> rooms w !! n2 = Some ref -> n1 = n2;
  wf_listeners :
    forall ref r l,
      heap w !! ref = Some r -> l ∈ Listeners r -> l < length (sessions w);
  wf_forwards :
    forall t l, (t, l) ∈ forwards w -> l < length (sessions w);
  wf_delivered :
    forall l t f, (l, t, f) ∈ delivered w -> (t, l) ∈ forwards w;
}.

Ltac wsimpl :=
  cbn [rooms heap sessions logs forwards delivered fst snd
       withRooms withHeap withSessions withLogs withForwards withDelivered
       logPrintln updRoom updSession putSig createRoom emptyWorld] in *.

Lemma wf_emptyWorld : wf emptyWorld.
Proof.
  split; wsimpl; intros *.
  - by rewrite lookup_empty.
  - by rewrite lookup_empty.
  - by rewrite lookup_nil.
  - by intros ?%elem_of_nil.
  - by intros ?%elem_of_nil.
Qed.

Lemma wf_updSession p f w : wf w -> wf (updSession p f w).
Proof.
  intros [H1 H2 H3 H4 H5]. split; wsimpl; rewrite ?length_alter; eauto.
Qed.

Lemma wf_withLogs l w : wf w -> wf (withLogs l w).
Proof. intros [H1 H2 H3 H4 H5]. split; wsimpl; eauto. Qed.

Lemma wf_logPrintln line w : wf w -> wf (logPrintln line w).
Proof. apply wf_withLogs. Qed.

Lemma wf_putSig p sg w : wf w -> wf (putSig p sg w).
Proof. intros Hw. by apply wf_withLogs, wf_updSession. Qed.

Lemma wf_updRoom room f w :
  (forall r l, l ∈ Listeners (f r) -> l ∈ Listeners r \/ l < length (sessions w)) ->
  wf w -> wf (updRoom room f w).
Proof.
  intros Hf [H1 H2 H3 H4 H5]. split; wsimpl; rewrite ?length_alter; eauto.
  intros ref r l Hr Hl.
  destruct (decide (room = ref)) as [->|Hne].
  - rewrite list_lookup_alter_eq in Hr.
    destruct (heap w !! ref) as [r0|] eqn:Hr0; [|discriminate].
    injection Hr as <-. destruct (Hf _ _ Hl); eauto.
  - rewrite list_lookup_alter_ne in Hr by done. eauto.
Qed.

Lemma wf_newSession s w : wf w -> wf (withSessions (sessions w ++ [s]) w).
Proof.
  intros [H1 H2 H3 H4 H5]. split; wsimpl; eauto;
    intros *; rewrite length_app; cbn.
  - intros Hr Hl. specialize (H3 _ _ _ Hr Hl). lia.
  - intros Ht. specialize (H4 _ _ Ht). lia.
Qed.

Lemma wf_connectionState p s w : wf w -> wf (connectionState p s w).
Proof.
  intros Hw. unfold connectionState.
  destruct (sessions w !! p) as [ss|]; [|done].
  destruct (sOnConnectionStateChange ss); [|done].
  unfold onConnectionStateChange.
  destruct s; try done; apply wf_updRoom; try done;
    intros r l; cbn; intros [Hl _]%elem_of_difference; by left.
Qed.

Lemma wf_deferred p w : wf w -> wf (deferred p w).
Proof.
  intros Hw. unfold deferred, wsClose, pcClose.
  by apply wf_updSession, wf_connectionState, wf_updSession.
Qed.

Lemma wf_createRoom drawn w : wf w -> wf (fst (createRoom drawn w)).
Proof.
  intros [H1 H2 H3 H4 H5]. split; wsimpl; eauto.
  - intros name ref. rewrite length_app; cbn [length].
    destruct (decide (randomHex 6 drawn = name)) as [->|Hne].
    + rewrite lookup_insert_eq. intros [= <-]. lia.
    + rewrite lookup_insert_ne by done. intros Hr%H1. lia.
  - intros n1 n2 ref. rewrite !lookup_insert.
    repeat case_decide; subst; try done.
    + intros [= <-] Hr%H1. lia.
    + intros Hr%H1 [= <-]. lia.
    + eauto.
  - intros ref r l Hr Hl.
    apply lookup_app_Some in Hr as [Hr|[_ Hr]]; [eauto|].
    apply list_lookup_singleton_Some in Hr as [_ <-]. cbn in Hl. set_solver.
Qed.

Lemma wf_onTrack room track w : wf w -> wf (onTrack room track w).
Proof.
  intros Hw. unfold onTrack.
  assert (Hl : wf (logPrintln ("Broadcaster sent track: " +:+ trackKind track) w))
    by by apply wf_logPrintln.
  revert Hl. generalize (logPrintln ("Broadcaster sent track: " +:+ trackKind track) w).
  intros w1 [H1 H2 H3 H4 H5].
  destruct (heap w1 !! room) as [r|] eqn:Hr; [|by split].
  split; wsimpl; eauto.
  - intros t l [Ht|Ht]%elem_of_app; [eauto|].
    apply list_elem_of_fmap in Ht as (l' & [= -> ->] & Hl').
    apply elem_of_elements in Hl'. eauto.
  - intros l t f Hd. apply elem_of_app. left. eauto.
Qed.

Lemma wf_joinSetup req w : wf w -> wf (fst (joinSetup req w)).
Proof.
  intros Hw. unfold joinSetup.
  destruct (rooms w !! roomNameOf (path req)) as [room|]; [|done].
  destruct (upgradeErr req); [by apply wf_logPrintln|].
  destruct (newPeerConnection req) as [e|e0]; [by apply wf_logPrintln|].
  match goal with
  | |- context [withSessions (sessions w ++ [?s]) w] =>
      pose proof (wf_newSession s w Hw) as Hn;
      assert (Hlen : length (sessions (withSessions (sessions w ++ [s]) w))
                     = S (length (sessions w)))
        by (wsimpl; rewrite length_app; cbn; lia);
      revert Hn Hlen; generalize (withSessions (sessions w ++ [s]) w)
  end.
  intros w1 Hw1 Hlen.
  destruct (role req =? "broadcaster")%string.
  - destruct (broadcasterOf room w1).
    + by apply wf_deferred, wf_updSession.
    + destruct (transceiverErr req).
      * by apply wf_deferred, wf_logPrintln.
      * cbn [fst]. apply wf_updSession, wf_updSession, wf_updRoom;
          [|by apply wf_updSession].
        intros r l. cbn. auto.
  - destruct (transceiverErr req).
    + by apply wf_deferred, wf_logPrintln.
    + cbn [fst]. apply wf_updSession, wf_updSession, wf_updRoom;
        [|by apply wf_updSession].
      intros r l. cbn. rewrite length_alter, Hlen.
      intros [->%elem_of_singleton|Hl]%elem_of_union; [right; lia | by left].
Qed.

Lemma wf_step ev w : wf w -> wf (step ev w).
Proof.
  intros Hw. destruct ev as [drawn|req|p msg|p e|p c|p s|p track|track l f]; cbn [step].
  - by apply wf_createRoom.
  - by apply wf_joinSetup.
  - destruct (sessions w !! p) as [ss|]; [|done].
    destruct (sRunning ss); [|done]. by apply wf_putSig.
  - destruct (sessions w !! p) as [ss|]; [|done].
    destruct (sRunning ss); [|done].
    by apply wf_deferred, wf_updSession, wf_logPrintln.
  - destruct (sessions w !! p) as [ss|]; [|done].
    destruct (sOnICE ss && negb (sWSClosed ss)); [|done]. by apply wf_putSig.
  - by apply wf_connectionState.
  - destruct (sessions w !! p) as [ss|]; [|done].
    destruct (sOnTrack ss); [|done]. by apply wf_onTrack.
  - case_bool_decide as Hin; [|done].
    destruct Hw as [H1 H2 H3 H4 H5]. split; wsimpl; eauto.
    intros l' t' f' [Hd|Hd]%elem_of_app; [eauto|].
    apply list_elem_of_singleton in Hd as [= -> -> ->]. done.
Qed.

Lemma run_cons ev evs w : run (ev :: evs) w = run evs (step ev w).
Proof. reflexivity. Qed.

Lemma run_app evs1 evs2 w : run (evs1 ++ evs2) w = run evs2 (run evs1 w).
Proof. unfold run. apply foldl_app. Qed.

Lemma wf_run evs : forall w, wf w -> wf (run evs w).
Proof.
  induction evs as [|ev evs IH]; intros w Hw; [done|].
  rewrite run_cons. apply IH. by apply wf_step.
Qed.

(** *** What a step leaves alone *)

Ltac unfold_handlers :=
  unfold joinSetup, deferred, wsClose, pcClose, connectionState,
    onConnectionStateChange, onTrack, putSig, updSession, updRoom, logPrintln,
    withRooms, withHeap, withSessions, withLogs, withForwards, withDelivered.

Ltac deferred_cases p w :=
  unfold deferred, wsClose, pcClose, connectionState;
  destruct (sessions (updSession p sessClosePC w) !! p) as [?ss|];
    [destruct (sOnConnectionStateChange _)|].

Lemma deferred_rooms p (w : World E) : rooms (deferred p w) = rooms w.
Proof. deferred_cases p w; reflexivity. Qed.

Lemma deferred_forwards p (w : World E) : forwards (deferred p w) = forwards w.
Proof. deferred_cases p w; reflexivity. Qed.

Lemma deferred_delivered p (w : World E) : delivered (deferred p w) = delivered w.
Proof. deferred_cases p w; reflexivity. Qed.

Lemma deferred_sessions_length p (w : World E) :
  length (sessions (deferred p w)) = length (sessions w).
Proof.
  deferred_cases p w; unfold onConnectionStateChange, updSession, updRoom;
    cbn [sessions withSessions withHeap]; by rewrite !length_alter.
Qed.

Ltac joinSetup_cases req w :=
  unfold joinSetup;
  destruct (rooms w !! roomNameOf (path req)) as [?room|]; [|reflexivity];
  destruct (upgradeErr req); [reflexivity|];
  destruct (newPeerConnection req) as [?e|?e0]; [reflexivity|];
  destruct (role req =? "broadcaster")%string;
    [destruct (broadcasterOf _ _)|]; try destruct (transceiverErr req);
    cbn [fst];
    rewrite ?deferred_rooms, ?deferred_forwards, ?deferred_delivered;
    reflexivity.

Lemma joinSetup_rooms req w : rooms (fst (joinSetup req w)) = rooms w.
Proof. joinSetup_cases req w. Qed.

Lemma joinSetup_forwards req w : forwards (fst (joinSetup req w)) = forwards w.
Proof. joinSetup_cases req w. Qed.

Lemma joinSetup_delivered req w : delivered (fst (joinSetup req w)) = delivered w.
Proof. joinSetup_cases req w. Qed.

Lemma joinSetup_sessions_length req w :
  length (sessions w) <= length (sessions (fst (joinSetup req w))).
Proof.
  unfold joinSetup.
  destruct (rooms w !! roomNameOf (path req)) as [room|]; [|done].
  destruct (upgradeErr req); [done|].
  destruct (newPeerConnection req) as [e|e0]; [done|].
  destruct (role req =? "broadcaster")%string;
    [destruct (broadcasterOf _ _)|]; try destruct (transceiverErr req);
    cbn [fst]; rewrite ?deferred_sessions_length;
    unfold updSession, updRoom, logPrintln, withLogs, withHeap, withSessions;
    cbn [sessions]; rewrite ?length_alter, ?length_app; cbn [length]; lia.
Qed.

Definition isCreate (ev : Event) : bool :=
  match ev with EvCreate _ => true | _ => false end.

Definition isTrackOf (t : TrackRemote) (ev : Event) : bool :=
  match ev with EvTrack _ t' => bool_decide (t' = t) | _ => false end.

Lemma step_rooms ev w : isCreate ev = false -> rooms (step ev w) = rooms w.
Proof.
  destruct ev; try discriminate; intros _; cbn [step];
    [apply joinSetup_rooms|..]; unfold_handlers; repeat case_match; reflexivity.
Qed.

Lemma step_sessions_length ev w :
  length (sessions w) <= length (sessions (step ev w)).
Proof.
  destruct ev; cbn [step]; [|apply joinSetup_sessions_length|..];
    unfold createRoom; unfold_handlers;
    repeat case_match; cbn [fst sessions]; rewrite ?length_alter; lia.
Qed.

Lemma run_sessions_length evs :
  forall w, length (sessions w) <= length (sessions (run evs w)).
Proof.
  induction evs as [|ev evs IH]; intros w; [done|].
  rewrite run_cons. etrans; [apply (step_sessions_length ev)|apply IH].
Qed.

(** The goroutines forwarding a track [t] change only when [OnTrack] fires
    for [t]. *)
Definition forwardsOf (t : TrackRemote) (w : World E) : list (TrackRemote * PC) :=
  filter (fun x => fst x = t) (forwards w).

Lemma filter_other_track (t t' : TrackRemote) (ls : list PC) :
  t' <> t ->
  filter (fun x : TrackRemote * PC => fst x = t) ((fun l => (t', l)) <$> ls) = [].
Proof.
  intros Hne. induction ls as [|l ls IH]; [done|].
  cbn [fmap list_fmap]. by rewrite filter_cons_False.
Qed.

Lemma step_forwardsOf t ev w :
  isTrackOf t ev = false -> forwardsOf t (step ev w) = forwardsOf t w.
Proof.
  unfold forwardsOf.
  destruct ev as [drawn|req|p msg|p e|p c|p s|p track|track l f]; cbn [step isTrackOf];
    intros Ht; [|by rewrite joinSetup_forwards|..];
    try (unfold createRoom; unfold_handlers; repeat case_match; reflexivity).
  apply bool_decide_eq_false in Ht.
  destruct (sessions w !! p) as [ss|]; [|done].
  destruct (sOnTrack ss); [|done].
  unfold onTrack. unfold_handlers. cbn [heap].
  destruct (heap w !! sRoom ss) as [r|]; [|done].
  cbn [forwards]. rewrite filter_app.
  by rewrite filter_other_track, app_nil_r.
Qed.

Lemma run_forwardsOf t evs :
  forall w,
    forallb (fun ev => negb (isTrackOf t ev)) evs = true ->
    forwardsOf t (run evs w) = forwardsOf t w.
Proof.
  induction evs as [|ev evs IH]; intros w Hevs; [done|].
  cbn in Hevs. apply andb_true_iff in Hevs as [Hev Hevs].
  apply negb_true_iff in Hev.
  rewrite run_cons, IH by done. by apply step_forwardsOf.
Qed.

Lemma elem_of_forwardsOf t l w : (t, l) ∈ forwardsOf t w <-> (t, l) ∈ forwards w.
Proof. unfold forwardsOf. rewrite list_elem_of_filter. cbn. tauto. Qed.

(** The registry holds the identifiers returned so far, and only those. *)
Lemma run_rooms evs :
  forall w id,
    is_Some (rooms (run evs w) !! id) ->
    id ∈ returnedIDs evs w \/ is_Some (rooms w !! id).
Proof.
  induction evs as [|ev evs IH]; intros w id Hid; [by right|].
  rewrite run_cons in Hid. apply IH in Hid as [Hid|Hid].
  - left. cbn [returnedIDs]. apply elem_of_app. by right.
  - destruct (isCreate ev) eqn:Hc.
    + destruct ev as [drawn| | | | | | |]; try discriminate.
      cbn [step createRoom fst rooms withRooms] in Hid.
      destruct (decide (randomHex 6 drawn = id)) as [<-|Hne].
      * left. cbn [returnedIDs]. apply elem_of_app. left.
        cbn [createRoom snd respRoom]. apply list_elem_of_singleton. done.
      * rewrite lookup_insert_ne in Hid by done. by right.
    + rewrite step_rooms in Hid by done. by right.
Qed.

(** *** The signaling loop on whole frames *)

(** The JSON string value of the [type] member of a decoded frame: what the
    peer wrote between the quotes. *)
Definition frameTag (msgMap : gmap string Json.RawMessage) : string :=
  match Json.index msgMap "type" with
  | String q body =>
      if (q =? Json.dquote)%char then Json.unquote (String q body) else EmptyString
  | EmptyString => EmptyString
  end.

(** A frame that is not JSON for a map, or whose payload member does not
    unmarshal as the type its tag asks for. *)
Definition payloadFails (tag : string) (msgMap : gmap string Json.RawMessage) : Prop :=
  ((tag = "offer" \/ tag = "answer")
   /\ unmarshalSessionDescription (Json.index msgMap "sdp") = None)
  \/ (tag = "candidate"
      /\ unmarshalICECandidateInit (Json.index msgMap "candidate") = None).

Definition malformed (msg : string) : Prop :=
  snd (Json.Unmarshal msg) <> None
  \/ payloadFails (frameTag (fst (Json.Unmarshal msg))) (fst (Json.Unmarshal msg)).

(** A well-formed frame whose tag does not apply to the role of the
    session. *)
Definition roleInapplicable (isBroadcaster : bool) (msg : string) : Prop :=
  snd (Json.Unmarshal msg) = None
  /\ ((frameTag (fst (Json.Unmarshal msg)) = "offer" /\ isBroadcaster = false)
      \/ (frameTag (fst (Json.Unmarshal msg)) = "answer" /\ isBroadcaster = true)).

(** The [continue]s of the switch after a payload that does not
    unmarshal. *)
Lemma dispatch_payloadFails isBroadcaster msgType msgMap (s : Sig E) :
  payloadFails msgType msgMap -> dispatch isBroadcaster msgType msgMap s = s.
Proof.
  unfold dispatch.
  intros [[[-> | ->] Hsd] | [-> Hc]]; cbn [String.eqb Ascii.eqb Bool.eqb];
    rewrite ?Hsd, ?Hc; by destruct isBroadcaster.
Qed.

(** The [continue]s of the switch for a tag that does not apply to the
    role. *)
Lemma dispatch_roleInapplicable isBroadcaster msgType msgMap (s : Sig E) :
  (msgType = "offer" /\ isBroadcaster = false)
  \/ (msgType = "answer" /\ isBroadcaster = true) ->
  dispatch isBroadcaster msgType msgMap s = s.
Proof. by intros [[-> ->] | [-> ->]]. Qed.

(** What the [offer] case does once it is entered and the library calls
    succeed: remote description, answer, local description, one answer
    frame. *)
Lemma dispatch_offer_answers msgMap (s : Sig E) offer answer e1 e2 e3 :
  unmarshalSessionDescription (Json.index msgMap "sdp") = Some offer ->
  SetRemoteDescription offer (pc s) = (e1, None) ->
  CreateAnswer e1 = (e2, inr answer) ->
  SetLocalDescription answer e2 = (e3, None) ->
  dispatch true "offer" msgMap s = writeJSON (FrameAnswer answer) (setPC e3 s).
Proof.
  intros Hsd H1 H2 H3. unfold dispatch. cbn [String.eqb Ascii.eqb Bool.eqb negb].
  by rewrite Hsd, H1, H2, H3.
Qed.

Lemma handleSignaling_inert isBroadcaster inbound readErr (s : Sig E) :
  handleSignaling isBroadcaster inbound readErr s
  = println ("WebSocket read error: " +:+ readErr)
      (mkSig (pc s) (sent s) (logged s) true).
Proof.
  unfold handleSignaling. f_equal.
  induction inbound as [|msg inbound IH] using rev_ind; [done|].
  by rewrite foldl_app, IH; cbn [foldl]; rewrite handleMessage_inert.
Qed.

Lemma handleSignaling_skip isBroadcaster pre msg post readErr (s : Sig E) :
  (forall s', handleMessage isBroadcaster msg s' = s') ->
  handleSignaling isBroadcaster (pre ++ msg :: post) readErr s
  = handleSignaling isBroadcaster (pre ++ post) readErr s.
Proof.
  intros Hmsg. unfold handleSignaling.
  by rewrite !foldl_app; cbn [foldl]; rewrite Hmsg.
Qed.

(** C2 (the code does not do it): an offer frame on a publisher session.
    The frame is valid JSON, its [type] member is the quoted word, the
    switch compares the raw text with the bare word, no case is selected:
    no call on the endpoint, no answer frame. *)
Theorem offer_frame_never_answered (s : Sig E) (readErr : string) :
  snd (Json.Unmarshal offerFrame) = None
  /\ Json.index (fst (Json.Unmarshal offerFrame)) "type" = Json.dq "'offer'"
  /\ Json.index (fst (Json.Unmarshal offerFrame)) "sdp"
     = Json.dq "{'type':'offer','sdp':'v=0'}"
  /\ handleMessage true offerFrame s = s
  /\ sent (handleSignaling true [offerFrame] readErr s) = sent s
  /\ pc (handleSignaling true [offerFrame] readErr s) = pc s.
Proof.
  split; [by vm_compute|]. split; [by vm_compute|]. split; [by vm_compute|].
  split; [apply handleMessage_inert|].
  by rewrite handleSignaling_inert.
Qed.

(** C5: a malformed frame is dropped without a trace: the session state
    (endpoint, frames sent, log) is what it was, and the loop goes on with
    the frames that follow. *)
Theorem malformed_frame_dropped (isBroadcaster : bool) (msg : string)
    (pre post : list string) (readErr : string) (s : Sig E) :
  malformed msg ->
  handleMessage isBroadcaster msg s = s
  /\ handleSignaling isBroadcaster (pre ++ msg :: post) readErr s
     = handleSignaling isBroadcaster (pre ++ post) readErr s.
Proof.
  intros Hbad.
  assert (Hmsg : forall s', handleMessage isBroadcaster msg s' = s').
  { intros s'. destruct Hbad as [Herr|_]; [|apply handleMessage_inert].
    unfold handleMessage.
    by destruct (Json.Unmarshal msg) as [msgMap [e|]]. }
  split; [apply Hmsg | by apply handleSignaling_skip].
Qed.

(** C6: an offer on a subscriber session and an answer on a publisher
    session are ignored: the switch leaves the session as it was for such a
    tag, the frame as a whole leaves it as it was, and the loop goes on. *)
Theorem role_inapplicable_ignored (isBroadcaster : bool) (msg : string)
    (pre post : list string) (readErr : string) (s : Sig E) :
  roleInapplicable isBroadcaster msg ->
  dispatch isBroadcaster (frameTag (fst (Json.Unmarshal msg)))
    (fst (Json.Unmarshal msg)) s = s
  /\ handleMessage isBroadcaster msg s = s
  /\ handleSignaling isBroadcaster (pre ++ msg :: post) readErr s
     = handleSignaling isBroadcaster (pre ++ post) readErr s.
Proof.
  intros [_ Hrole].
  split; [by apply dispatch_roleInapplicable|].
  split; [apply handleMessage_inert|].
  apply handleSignaling_skip. intros s'. apply handleMessage_inert.
Qed.

(** *** [joinRoom] as a run of events

    A call of [joinRoom] is its setup, a step for every message read, and
    the step of the failing read. *)

Lemma joinSetup_started req (w w1 : World E) p :
  joinSetup req w = (w1, Started p) ->
  p = length (sessions w)
  /\ exists ss,
       sessions w1 !! p = Some ss /\ sRunning ss = true /\ sOnICE ss = true.
Proof.
  unfold joinSetup.
  destruct (rooms w !! roomNameOf (path req)) as [room|]; [|discriminate].
  destruct (upgradeErr req); [discriminate|].
  destruct (newPeerConnection req) as [e|e0]; [discriminate|].
  destruct (role req =? "broadcaster")%string.
  - destruct (broadcasterOf room _); [discriminate|].
    destruct (transceiverErr req); [discriminate|].
    intros [= <- <-]. split; [done|]. wsimpl.
    rewrite !list_lookup_alter_eq, lookup_app_r, Nat.sub_diag by done.
    cbn. eauto.
  - destruct (transceiverErr req); [discriminate|].
    intros [= <- <-]. split; [done|]. wsimpl.
    rewrite !list_lookup_alter_eq, lookup_app_r, Nat.sub_diag by done.
    cbn. eauto.
Qed.

Lemma putSig_same p (ss : Session E) (w : World E) :
  sessions w !! p = Some ss -> putSig p (sigOf ss w) w = w.
Proof.
  unfold PC in *.
  intros Hp. unfold putSig, updSession, withLogs, withSessions. cbn.
  destruct w as [r h ses lg fw dl]. cbn in *. f_equal.
  apply list_eq. intros i. destruct (decide (p = i)) as [<-|Hne].
  - rewrite list_lookup_alter_eq, Hp. by destruct ss.
  - by rewrite list_lookup_alter_ne.
Qed.

Lemma step_message_inert p msg (w : World E) : step (EvMessage p msg) w = w.
Proof.
  cbn [step]. destruct (sessions w !! p) as [ss|] eqn:Hp; [|done].
  destruct (sRunning ss); [|done].
  rewrite handleMessage_inert. by apply putSig_same.
Qed.

Lemma run_messages_inert p inbound (w : World E) :
  run (EvMessage p <$> inbound) w = w.
Proof.
  induction inbound as [|msg inbound IH]; [done|].
  cbn [fmap list_fmap]. by rewrite run_cons, step_message_inert.
Qed.

Lemma joinRoom_as_events req inbound readErr (w : World E) p :
  snd (joinSetup req w) = Started p ->
  fst (joinRoom req inbound readErr w)
  = run (EvJoin req :: (EvMessage p <$> inbound) ++ [EvReadError p readErr]) w.
Proof.
  unfold PC in *.
  intros Hr. unfold joinRoom.
  rewrite run_cons, run_app, run_messages_inert. cbn [run foldl step].
  destruct (joinSetup req w) as [w1 r] eqn:Hs. cbn [snd fst] in *. subst r.
  apply joinSetup_started in Hs as (_ & ss & Hp & Hrun & Hice).
  unfold runSignaling. rewrite Hp, Hrun, handleSignaling_inert. cbn [fst].
  f_equal. f_equal.
  unfold putSig, logPrintln, updSession, withLogs, withSessions, println, sigOf.
  cbn. f_equal.
  apply list_eq. intros i. destruct (decide (p = i)) as [<-|Hne].
  - unfold PC in *. rewrite list_lookup_alter_eq, Hp. destruct ss; cbn in *. by subst.
  - by rewrite list_lookup_alter_ne.
Qed.

(** *** The registry *)

(** C7: a join for a room that [createRoom] never returned finds nothing in
    the registry: the answer is 404 with a plain-text body, and the process
    state is what it was (no websocket, no peer connection, no room
    touched). *)
Theorem join_unknown_room_404 (evs : list Event) (req : JoinRequest E)
    (inbound : list string) (readErr : string) :
  roomNameOf (path req) ∉ returnedIDs evs emptyWorld ->
  rooms (run evs emptyWorld) !! roomNameOf (path req) = None
  /\ joinRoom req inbound readErr (run evs emptyWorld)
     = (run evs emptyWorld,
        HttpError 404 "text/plain; charset=utf-8" ("Room not found" +:+ newline)).
Proof.
  intros Hid.
  assert (Hnone : rooms (run evs emptyWorld) !! roomNameOf (path req) = None).
  { destruct (rooms (run evs emptyWorld) !! roomNameOf (path req)) as [ref|] eqn:Hr;
      [|done].
    destruct (run_rooms evs emptyWorld (roomNameOf (path req))) as [Hin|[x Hx]];
      [by rewrite Hr | done |].
    cbn in Hx. by rewrite lookup_empty in Hx. }
  split; [exact Hnone|].
  unfold joinRoom, joinSetup. by rewrite Hnone.
Qed.

(** The six bytes a call of [createRoom] encodes, for every call of a
    trace. *)
Definition drawsOf (evs : list Event) : list string :=
  omap (fun ev =>
          match ev with
          | EvCreate drawn => Some (randRead (make 6) drawn)
          | _ => None
          end) evs.

Lemma returnedIDs_drawsOf evs :
  forall w, returnedIDs evs w = Hex.EncodeToString <$> drawsOf evs.
Proof.
  induction evs as [|ev evs IH]; intros w; [done|].
  cbn [returnedIDs drawsOf omap list_omap]. rewrite IH.
  by destruct ev.
Qed.

Lemma createRoom_lookup drawn (w : World E) :
  rooms (fst (createRoom drawn w)) !! randomHex 6 drawn = Some (length (heap w))
  /\ heap (fst (createRoom drawn w)) !! length (heap w)
     = Some (newRoom (randomHex 6 drawn)).
Proof.
  wsimpl. split; [apply lookup_insert_eq|].
  by rewrite lookup_app_r, Nat.sub_diag.
Qed.

(** C8 (amended): [createRoom] has no failure path.  The identifier is the
    hex text of the six bytes drawn, twelve characters; the registry maps it
    to a new empty room; the URL is the fixed prefix and the identifier.
    The identifiers of a sequence of calls are pairwise distinct when the
    draws are. *)
Theorem createRoom_ids_distinct_when_draws_are (evs : list Event)
    (w : World E) (drawn : string) :
  NoDup (drawsOf evs) ->
  (respRoom (snd (createRoom drawn w))
   = Hex.EncodeToString (randRead (make 6) drawn)
   /\ String.length (respRoom (snd (createRoom drawn w))) = 12
   /\ respURL (snd (createRoom drawn w))
      = "https://your-app.fly.dev/r/" +:+ respRoom (snd (createRoom drawn w))
   /\ exists ref,
        rooms (fst (createRoom drawn w)) !! respRoom (snd (createRoom drawn w))
        = Some ref
        /\ heap (fst (createRoom drawn w)) !! ref
           = Some (mkRoom (respRoom (snd (createRoom drawn w))) None ∅))
  /\ NoDup (returnedIDs evs w).
Proof.
  intros Hdraws. split.
  - split; [done|]. split.
    + cbn [createRoom snd respRoom]. unfold randomHex, randRead.
      by rewrite Hex.EncodeToString_length, copy_length, make_length.
    + split; [done|]. exists (length (heap w)). apply createRoom_lookup.
  - rewrite returnedIDs_drawsOf. apply NoDup_fmap_2; [|done].
    intros a b. apply Hex.EncodeToString_inj.
Qed.

(** C10: when the identifier drawn is already in the registry, the
    registry afterwards maps it to a new empty room; no name maps to the
    previous room any more, which itself stays as it was, publisher and
    listeners included, for the sessions that hold it. *)
Theorem createRoom_replaces_room (evs : list Event) (drawn : string)
    (old : RoomRef) :
  rooms (run evs emptyWorld) !! randomHex 6 drawn = Some old ->
  respRoom (snd (createRoom drawn (run evs emptyWorld))) = randomHex 6 drawn
  /\ (exists ref,
        rooms (fst (createRoom drawn (run evs emptyWorld))) !! randomHex 6 drawn
        = Some ref
        /\ ref <> old
        /\ heap (fst (createRoom drawn (run evs emptyWorld))) !! ref
           = Some (newRoom (randomHex 6 drawn)))
  /\ (forall name,
        rooms (fst (createRoom drawn (run evs emptyWorld))) !! name <> Some old)
  /\ heap (fst (createRoom drawn (run evs emptyWorld))) !! old
     = heap (run evs emptyWorld) !! old.
Proof.
  intros Hold.
  pose proof (wf_run evs emptyWorld wf_emptyWorld) as Hwf.
  pose proof (wf_rooms_bound _ Hwf _ _ Hold) as Hlt.
  split; [done|]. split; [|split].
  - exists (length (heap (run evs emptyWorld))).
    destruct (createRoom_lookup drawn (run evs emptyWorld)) as [Hr Hh].
    split; [done|]. split; [lia|done].
  - intros name. wsimpl.
    destruct (decide (randomHex 6 drawn = name)) as [<-|Hne].
    + rewrite lookup_insert_eq. intros [= Heq]. lia.
    + rewrite lookup_insert_ne by done. intros Hname.
      apply Hne. by eapply (wf_rooms_inj _ Hwf).
  - wsimpl. by rewrite lookup_app_l.
Qed.

(** *** Fan-out *)

(** What [OnTrack] starts: a goroutine for every listener in the room at
    that moment. *)
Lemma step_track_fanout (p : PC) (t : TrackRemote) (w : World E) (ss : Session E) :
  sessions w !! p = Some ss -> sOnTrack ss = true ->
  forwards (step (EvTrack p t) w)
  = (forwards w ++ ((fun l => (t, l)) <$> elements (listenersOf (sRoom ss) w)))%list.
Proof.
  intros Hp Hon. cbn [step]. rewrite Hp, Hon.
  unfold onTrack, listenersOf. cbn [logPrintln withLogs heap].
  destruct (heap w !! sRoom ss) as [r|]; [done|].
  by rewrite elements_empty, app_nil_r.
Qed.

(** C9: the goroutines that forward a track are those started when the
    track began.  A connection that did not exist then is given none,
    whatever happens later, and no frame of the track is forwarded to
    it. *)
Theorem late_listener_never_forwarded (evs0 post : list Event) (b : PC)
    (t : TrackRemote) (l : PC) :
  length (sessions (step (EvTrack b t) (run evs0 emptyWorld))) <= l ->
  forallb (fun ev => negb (isTrackOf t ev)) post = true ->
  forwardsOf t (run post (step (EvTrack b t) (run evs0 emptyWorld)))
  = forwardsOf t (step (EvTrack b t) (run evs0 emptyWorld))
  /\ ((t, l) ∉ forwards (run post (step (EvTrack b t) (run evs0 emptyWorld))))
  /\ (forall f,
        (l, t, f) ∉ delivered (run post (step (EvTrack b t) (run evs0 emptyWorld)))).
Proof.
  intros Hlate Hpost.
  set (w2 := step (EvTrack b t) (run evs0 emptyWorld)) in *.
  assert (Hwf2 : wf w2) by (apply wf_step, wf_run, wf_emptyWorld).
  pose proof (wf_run post w2 Hwf2) as Hwf'.
  pose proof (run_forwardsOf t post w2 Hpost) as Hsame.
  assert (Hnot : (t, l) ∉ forwards (run post w2)).
  { intros Hin. apply elem_of_forwardsOf in Hin. rewrite Hsame in Hin.
    apply elem_of_forwardsOf in Hin.
    pose proof (wf_forwards _ Hwf2 _ _ Hin). lia. }
  split; [done|]. split; [done|].
  intros f Hd. apply Hnot. by eapply (wf_delivered _ Hwf').
Qed.

(** *** The end of a session *)

(** The world after [/create] drew the bytes [abcdef]: one empty room,
    named [616263646566]. *)
Definition oneRoom : World E := fst (createRoom "abcdef" emptyWorld).

Definition joinAs (r : string) (e0 : E) : JoinRequest E :=
  mkJoinRequest "/join/616263646566" r None (inr e0) None.

Lemma joinSetup_broadcaster_oneRoom (e0 : E) :
  joinSetup (joinAs "broadcaster" e0) oneRoom
  = (mkWorld (rooms oneRoom) [mkRoom "616263646566" (Some 0) ∅]
       [mkSession 0 true e0 [] [AudioDefault] true false true true false false]
       [] [] [],
     Started 0).
Proof. reflexivity. Qed.

Lemma joinSetup_listener_oneRoom (e0 : E) :
  joinSetup (joinAs "listener" e0) oneRoom
  = (mkWorld (rooms oneRoom) [mkRoom "616263646566" None ({[0]} ∪ ∅)]
       [mkSession 0 false e0 [] [AudioRecvonly] false true true true false false]
       [] [] [],
     Started 0).
Proof. reflexivity. Qed.

(** The sibling path: when a listener's session ends, its deferred
    [pc.Close()] reaches the state handler, which takes the connection out
    of the room. *)
Lemma listener_detached_at_session_end (e0 : E) (inbound : list string)
    (readErr : string) :
  listenersOf 0 (fst (joinRoom (joinAs "listener" e0) inbound readErr oneRoom))
  = ({[0]} ∪ ∅) ∖ {[0]}.
Proof.
  unfold joinRoom. rewrite joinSetup_listener_oneRoom.
  unfold runSignaling. cbn [sessions lookup list_lookup].
  by rewrite handleSignaling_inert.
Qed.

(** C4 (the code does not do it): a publisher session ends.  The endpoint
    and the websocket are closed, but the room still names the closed
    endpoint as its broadcaster, and the next broadcaster is turned
    away. *)
Theorem broadcaster_slot_kept_at_session_end (e0 e1 : E)
    (inbound inbound' : list string) (readErr readErr' : string) :
  snd (joinRoom (joinAs "broadcaster" e0) inbound readErr oneRoom) = Started 0
  /\ (sPCClosed <$>
        sessions (fst (joinRoom (joinAs "broadcaster" e0) inbound readErr oneRoom))
          !! 0) = Some true
  /\ (sWSClosed <$>
        sessions (fst (joinRoom (joinAs "broadcaster" e0) inbound readErr oneRoom))
          !! 0) = Some true
  /\ broadcasterOf 0
       (fst (joinRoom (joinAs "broadcaster" e0) inbound readErr oneRoom)) = Some 0
  /\ snd (joinRoom (joinAs "broadcaster" e1) inbound' readErr'
            (fst (joinRoom (joinAs "broadcaster" e0) inbound readErr oneRoom)))
     = AlreadyBroadcasting 1.
Proof.
  unfold joinRoom. rewrite joinSetup_broadcaster_oneRoom.
  unfold runSignaling. cbn [sessions lookup list_lookup].
  rewrite handleSignaling_inert.
  repeat split; reflexivity.
Qed.

End Server.

(** *** The attach race *)

(** A request alone goes through its five statements and stores its
    connection when the room has no broadcaster, as [joinSetup] does; it is
    turned away at the check when the room has one. *)
Lemma attach_alone (r : Room) :
  Broadcaster r = None ->
  Attach.runSchedule [0; 0; 0; 0; 0] (Attach.arrive r 1)
  = Some (Attach.mkSys (mkRoom (Name r) (Some 0) (Listeners r)) None
            [Attach.mkAttempt 0 None Attach.Attached []]).
Proof. destruct r as [n b l]; cbn. by intros ->. Qed.

Lemma attach_taken (r : Room) (p : PC) :
  Broadcaster r = Some p ->
  Attach.runSchedule [0] (Attach.arrive r 1)
  = Some (Attach.mkSys r None
            [Attach.mkAttempt 0 None Attach.Rejected
               [FrameError "Room already has a broadcaster"]]).
Proof. destruct r as [n b l]; cbn. by intros ->. Qed.

(** The behaviour the specification asks for, on one schedule: the first request
    runs its branch to the end, then the second starts and is turned
    away. *)
Example attach_one_after_the_other :
  exists s,
    Attach.runSchedule [0; 0; 0; 0; 0; 1] (Attach.arrive (newRoom "616263646566") 2)
    = Some s
    /\ Attach.countAt Attach.Attached s = 1
    /\ Attach.countAt Attach.Rejected s = 1
    /\ Broadcaster (Attach.room s) = Some 0.
Proof. eexists. split; [reflexivity|]. by vm_compute. Qed.

(** C1 (the code does not do it): two requests with [role=broadcaster] on
    an empty room.  Both read [room.Broadcaster] before either stores; both
    pass the check, both store under the mutex in turn, both are wired as
    the broadcaster, and no error frame is written. *)
Theorem attach_race_two_broadcasters :
  exists s,
    Attach.runSchedule [0; 1; 0; 1; 0; 0; 0; 1; 1; 1]
      (Attach.arrive (newRoom "616263646566") 2) = Some s
    /\ Attach.countAt Attach.Attached s = 2
    /\ Attach.countAt Attach.Rejected s = 0
    /\ Attach.aSent <$> Attach.attempts s = [[]; []]
    /\ Broadcaster (Attach.room s) = Some 1.
Proof. eexists. split; [reflexivity|]. by vm_compute. Qed.

(** *** Forwarding *)

Lemma substring_copy payload :
  forall buf,
    String.length payload <= String.length buf ->
    String.substring 0 (String.length payload) (copy buf payload) = payload.
Proof.
  induction payload as [|c payload IH]; intros [|b buf]; cbn; try lia; try done.
  intros Hlen. rewrite IH; [done|lia].
Qed.

Lemma forwardLoop_within_buffer reads :
  forall rtpBuf,
    Forall (fun f =>
              frameN f = Z.of_nat (String.length (framePayload f))
              /\ String.length (framePayload f) <= String.length rtpBuf) reads ->
    forwardLoop rtpBuf reads = (sampleOf <$> reads, Returned).
Proof.
  induction reads as [|f reads IH]; intros rtpBuf Hall; [done|].
  inversion Hall as [|? ? [Hn Hlen] Hrest]; subst.
  cbn [forwardLoop]. unfold sliceTo.
  rewrite copy_length, Hn.
  replace ((0 <=? _)%Z && (_ <=? _)%Z) with true
    by (symmetry; apply andb_true_iff; split; apply Z.leb_le; lia).
  rewrite Nat2Z.id, substring_copy by done.
  rewrite IH.
  - done.
  - eapply Forall_impl; [exact Hrest|].
    intros f' [? ?]. by rewrite copy_length.
Qed.

(** Where forwarding preserves the frames: every frame fits the buffer and the count read
    is the length of the payload. *)
Lemma forwardTrack_within_buffer reads :
  Forall (fun f =>
            frameN f = Z.of_nat (String.length (framePayload f))
            /\ String.length (framePayload f) <= 1400) reads ->
  forwardTrack None None reads = (sampleOf <$> reads, Returned).
Proof.
  intros Hall. unfold forwardTrack. apply forwardLoop_within_buffer.
  eapply Forall_impl; [exact Hall|].
  intros f [? ?]. by rewrite make_length.
Qed.

(** A frame of 1401 payload bytes, its count the length of its payload. *)
Definition largeFrame : Frame :=
  mkFrame 1401 (String "001" (make 1400)) 20.

(** C3 (the code does not do it): a frame whose payload is longer than the
    1400-byte buffer.  [rtpBuf[:n]] is out of range: the goroutine stops in
    a run-time panic, and neither this frame nor the one after it is
    forwarded. *)
Theorem forwardTrack_large_frame_panics (f : Frame) :
  String.length (framePayload largeFrame) = 1401
  /\ frameN largeFrame = Z.of_nat (String.length (framePayload largeFrame))
  /\ forwardTrack None None [largeFrame; f] = ([], Panicked).
Proof. by vm_compute. Qed.

(** *** A recording endpoint

    An endpoint that accepts every call and keeps the list of calls made on
    it, with decoders that accept any non-empty payload: enough to run the
    handlers on concrete requests. *)

Inductive Call : Type :=
| CallSetRemoteDescription (sd : SessionDescription)
| CallCreateAnswer
| CallSetLocalDescription (sd : SessionDescription)
| CallAddICECandidate (c : ICECandidateInit).

Global Instance recorderAPI : PeerConnectionAPI (list Call) := {|
  SetRemoteDescription sd e := (e ++ [CallSetRemoteDescription sd], None)%list;
  CreateAnswer e := (e ++ [CallCreateAnswer], inr (mkSessionDescription "answer" "v=0"))%list;
  SetLocalDescription sd e := (e ++ [CallSetLocalDescription sd], None)%list;
  AddICECandidate c e := (e ++ [CallAddICECandidate c], None)%list;
|}.

Global Instance textDecoders : PayloadDecoders := {|
  unmarshalSessionDescription raw :=
    match raw with
    | EmptyString => None
    | _ => Some (mkSessionDescription "offer" raw)
    end;
  unmarshalICECandidateInit raw :=
    match raw with
    | EmptyString => None
    | _ => Some (mkICECandidateInit raw None None None)
    end;
|}.

Definition sig0 : Sig (list Call) := mkSig [] [] [] true.

(** The switch does answer an offer when it is entered with the bare
    word. *)
Example dispatch_offer_recorded :
  dispatch true "offer" (fst (Json.Unmarshal offerFrame)) sig0
  = mkSig
      [CallSetRemoteDescription
         (mkSessionDescription "offer" (Json.dq "{'type':'offer','sdp':'v=0'}"));
       CallCreateAnswer;
       CallSetLocalDescription (mkSessionDescription "answer" "v=0")]
      [FrameAnswer (mkSessionDescription "answer" "v=0")] [] true.
Proof. by vm_compute. Qed.

Definition audioTrack : TrackRemote := mkTrack "audio0" "stream0" "audio/opus" "audio".

Lemma malformed_frame_dropped_witness :
  malformed "{oops"
  /\ handleMessage true "{oops" sig0 = sig0
  /\ handleSignaling true ([offerFrame] ++ "{oops" :: [offerFrame]) "EOF" sig0
     = handleSignaling true ([offerFrame] ++ [offerFrame]) "EOF" sig0.
Proof.
  assert (Hbad : malformed "{oops") by (left; vm_compute; discriminate).
  split; [exact Hbad|].
  exact (malformed_frame_dropped true "{oops" [offerFrame] [offerFrame] "EOF" sig0 Hbad).
Defined.

Lemma role_inapplicable_ignored_witness :
  roleInapplicable false offerFrame
  /\ dispatch false (frameTag (fst (Json.Unmarshal offerFrame)))
       (fst (Json.Unmarshal offerFrame)) sig0 = sig0
  /\ handleMessage false offerFrame sig0 = sig0
  /\ handleSignaling false ([] ++ offerFrame :: [offerFrame]) "EOF" sig0
     = handleSignaling false ([] ++ [offerFrame]) "EOF" sig0.
Proof.
  assert (Hrole : roleInapplicable false offerFrame).
  { split; [by vm_compute|]. left. split; [by vm_compute|reflexivity]. }
  split; [exact Hrole|].
  exact (role_inapplicable_ignored false offerFrame [] [offerFrame] "EOF" sig0 Hrole).
Defined.

Definition unknownJoin : JoinRequest (list Call) :=
  mkJoinRequest "/join/000000000000" "listener" None (inr []) None.

Lemma join_unknown_room_404_witness :
  (roomNameOf (path unknownJoin) ∉ returnedIDs [EvCreate "abcdef"] emptyWorld)
  /\ rooms (run [EvCreate "abcdef"] emptyWorld) !! roomNameOf (path unknownJoin) = None
  /\ joinRoom unknownJoin [offerFrame] "EOF" (run [EvCreate "abcdef"] emptyWorld)
     = (run [EvCreate "abcdef"] emptyWorld,
        HttpError 404 "text/plain; charset=utf-8" ("Room not found" +:+ newline)).
Proof.
  assert (Hid : roomNameOf (path unknownJoin)
                ∉ returnedIDs (E := list Call) [EvCreate "abcdef"] emptyWorld).
  { intros Hin. apply (bool_decide_pack _) in Hin. vm_compute in Hin. exact Hin. }
  split; [exact Hid|].
  exact (join_unknown_room_404 [EvCreate "abcdef"] unknownJoin [offerFrame] "EOF" Hid).
Defined.

(** Pairwise distinct identifiers would be [NoDup (returnedIDs evs w)] for
    every trace; two calls that draw the same bytes return the same
    identifier. *)
Lemma createRoom_same_draw_same_id :
  ~ NoDup (returnedIDs (E := list Call)
             [EvCreate "abcdef"; EvCreate "abcdef"] emptyWorld).
Proof. intros Hin. apply (bool_decide_pack _) in Hin. vm_compute in Hin. exact Hin. Qed.

Lemma createRoom_ids_distinct_when_draws_are_witness :
  NoDup (drawsOf (E := list Call) [EvCreate "abcdef"; EvCreate "abcdeg"])
  /\ respRoom (snd (createRoom (E := list Call) "abcdef" emptyWorld)) = "616263646566"
  /\ NoDup (returnedIDs (E := list Call)
              [EvCreate "abcdef"; EvCreate "abcdeg"] emptyWorld).
Proof.
  assert (Hd : NoDup (drawsOf (E := list Call) [EvCreate "abcdef"; EvCreate "abcdeg"])).
  { apply (bool_decide_unpack _). by vm_compute. }
  split; [exact Hd|].
  pose proof (createRoom_ids_distinct_when_draws_are
                [EvCreate "abcdef"; EvCreate "abcdeg"] emptyWorld "abcdef" Hd)
    as [[Hid _] Hnd].
  split; [exact Hid | exact Hnd].
Defined.

(** A room with its broadcaster and a listener, then a second [/create]
    that draws the same bytes. *)
Definition busyRoom : list (Event (E := list Call)) :=
  [EvCreate "abcdef"; EvJoin (joinAs "broadcaster" []); EvJoin (joinAs "listener" [])].

Lemma createRoom_replaces_room_witness :
  rooms (run busyRoom emptyWorld) !! randomHex 6 "abcdef" = Some 0
  /\ heap (run busyRoom emptyWorld) !! 0 = Some (mkRoom "616263646566" (Some 0) ({[1]} ∪ ∅))
  /\ (exists ref,
        rooms (fst (createRoom "abcdef" (run busyRoom emptyWorld))) !! randomHex 6 "abcdef"
        = Some ref
        /\ ref <> 0
        /\ heap (fst (createRoom "abcdef" (run busyRoom emptyWorld))) !! ref
           = Some (newRoom (randomHex 6 "abcdef")))
  /\ (forall name,
        rooms (fst (createRoom "abcdef" (run busyRoom emptyWorld))) !! name <> Some 0).
Proof.
  assert (Hold : rooms (run busyRoom emptyWorld) !! randomHex 6 "abcdef" = Some 0)
    by reflexivity.
  split; [exact Hold|]. split; [reflexivity|].
  pose proof (createRoom_replaces_room busyRoom "abcdef" 0 Hold) as (_ & Hnew & Hgone & _).
  split; [exact Hnew | exact Hgone].
Defined.

(** A broadcaster alone in its room when its track begins, then a listener
    who joins and a frame of that track. *)
Definition trackStarts : list (Event (E := list Call)) :=
  [EvCreate "abcdef"; EvJoin (joinAs "broadcaster" [])].

Definition lateJoin : list (Event (E := list Call)) :=
  [EvJoin (joinAs "listener" []); EvRTP audioTrack 1 (mkFrame 3 "abc" 20)].

Lemma late_listener_never_forwarded_witness :
  length (sessions (step (EvTrack 0 audioTrack) (run trackStarts emptyWorld))) <= 1
  /\ listenersOf 0 (run lateJoin (step (EvTrack 0 audioTrack) (run trackStarts emptyWorld)))
     = {[1]} ∪ ∅
  /\ ((audioTrack, 1)
      ∉ forwards (run lateJoin (step (EvTrack 0 audioTrack) (run trackStarts emptyWorld))))
  /\ (forall f,
        (1, audioTrack, f)
        ∉ delivered (run lateJoin (step (EvTrack 0 audioTrack) (run trackStarts emptyWorld)))).
Proof.
  assert (Hlate :
    length (sessions (step (EvTrack 0 audioTrack) (run trackStarts emptyWorld))) <= 1)
    by (vm_compute; lia).
  assert (Hpost : forallb (fun ev => negb (isTrackOf audioTrack ev)) lateJoin = true)
    by reflexivity.
  split; [exact Hlate|]. split; [reflexivity|].
  pose proof (late_listener_never_forwarded trackStarts lateJoin 0 audioTrack 1 Hlate Hpost)
    as (_ & Hf & Hd).
  split; [exact Hf | exact Hd].
Defined.

(** ** Further properties of the handlers *)

(** *** Lists and strings *)

Lemma alter_snoc {A} (f : A -> A) (l : list A) (x : A) :
  alter f (length l) (l ++ [x])%list = (l ++ [f x])%list.
Proof.
  induction l as [|y l IH]; [done|].
  cbn. by rewrite IH.
Qed.

Lemma lookup_snoc_length {A} (l : list A) (x : A) :
  (l ++ [x])%list !! length l = Some x.
Proof. by rewrite lookup_app_r, Nat.sub_diag. Qed.

Lemma substring_all s : String.substring 0 (String.length s) s = s.
Proof. induction s as [|c s IH]; [done|]. cbn. by rewrite IH. Qed.

Lemma roomNameOf_join id : roomNameOf ("/join/" +:+ id) = id.
Proof.
  unfold roomNameOf.
  change ("/join/" +:+ id)
    with (String "/" (String "j" (String "o" (String "i" (String "n" (String "/" id)))))).
  cbn [String.length Nat.sub String.substring].
  rewrite Nat.sub_0_r. apply substring_all.
Qed.

(** *** Identifiers *)

Definition isLowerHex (c : ascii) : bool :=
  ((48 <=? N_of_ascii c)%N && (N_of_ascii c <=? 57)%N)
  || ((97 <=? N_of_ascii c)%N && (N_of_ascii c <=? 102)%N).

Fixpoint allChars (p : ascii -> bool) (s : string) : bool :=
  match s with
  | EmptyString => true
  | String c s' => p c && allChars p s'
  end.

Lemma encodeByte_lowerHex v : allChars isLowerHex (Hex.encodeByte v) = true.
Proof. destruct v as [[] [] [] [] [] [] [] []]; reflexivity. Qed.

Lemma EncodeToString_lowerHex src :
  allChars isLowerHex (Hex.EncodeToString src) = true.
Proof.
  induction src as [|v src IH]; [done|].
  pose proof (encodeByte_lowerHex v) as Hv.
  cbn [Hex.EncodeToString]. unfold Hex.encodeByte in *.
  change (String ?a (String ?b EmptyString) +:+ ?t) with (String a (String b t)).
  cbn [allChars] in *. rewrite IH.
  by destruct (isLowerHex _), (isLowerHex _).
Qed.

(** X1: whatever the source of randomness delivers, [randomHex n] returns
    [2 * n] characters, each one of [0-9a-f]. *)
Theorem randomHex_shape (n : nat) (drawn : string) :
  String.length (randomHex n drawn) = 2 * n
  /\ allChars isLowerHex (randomHex n drawn) = true.
Proof.
  unfold randomHex, randRead. split.
  - by rewrite Hex.EncodeToString_length, copy_length, make_length.
  - apply EncodeToString_lowerHex.
Qed.

(** X2: the stripped variant's [randomHex n] returns [n] characters; with
    [n = 5] they are fixed by the first three bytes drawn, so draws that
    differ only later give the same identifier. *)
Theorem minimal_randomHex_shape (n : nat) (drawn : string) (a b c : ascii)
    (rest1 rest2 : string) :
  String.length (Minimal.randomHex n drawn) = n
  /\ Minimal.randomHex 5 (String a (String b (String c rest1)))
     = Minimal.randomHex 5 (String a (String b (String c rest2))).
Proof.
  split.
  - unfold Minimal.randomHex, randRead.
    assert (Hlen : forall m s, m <= String.length s ->
                     String.length (String.substring 0 m s) = m).
    { induction m as [|m IH]; intros s Hm; [by destruct s|].
      destruct s as [|x s]; cbn in Hm; [lia|]. cbn. rewrite IH; lia. }
    apply Hlen. rewrite Hex.EncodeToString_length, copy_length, make_length. lia.
  - reflexivity.
Qed.


(** *** The registry and the requests *)

Section MoreServer.

Context {E : Type} {api : PeerConnectionAPI E} {dec : PayloadDecoders}.

Ltac wsimpl' :=
  cbn [rooms heap sessions logs forwards delivered fst snd
       withRooms withHeap withSessions withLogs withForwards withDelivered
       logPrintln updRoom updSession putSig createRoom emptyWorld] in *.

Lemma broadcasterOf_newSession room (ss : Session E) (w : World E) :
  broadcasterOf room (withSessions (sessions w ++ [ss]) w) = broadcasterOf room w.
Proof. reflexivity. Qed.

(** X3: a room that [createRoom] has just returned can be joined: the
    registry maps the name in the URL to the new room, and the first
    request with [role=broadcaster], if its upgrade, its peer connection
    and its transceiver succeed, is started as the broadcaster of that
    room, in whatever state the server was. *)
Theorem create_then_broadcaster_starts (drawn : string) (w : World E)
    (req : JoinRequest E) (e0 : E) :
  path req = "/join/" +:+ respRoom (snd (createRoom drawn w)) ->
  role req = "broadcaster" ->
  upgradeErr req = None ->
  newPeerConnection req = inr e0 ->
  transceiverErr req = None ->
  rooms (fst (createRoom drawn w)) !! roomNameOf (path req)
  = Some (length (heap w))
  /\ snd (joinSetup req (fst (createRoom drawn w))) = Started (length (sessions w))
  /\ broadcasterOf (length (heap w)) (fst (joinSetup req (fst (createRoom drawn w))))
     = Some (length (sessions w)).
Proof.
  unfold RoomRef, PC in *.
  intros Hpath Hrole Hup Hpc Htr.
  assert (Hname : roomNameOf (path req) = randomHex 6 drawn)
    by (rewrite Hpath; apply roomNameOf_join).
  destruct (createRoom_lookup drawn w) as [Hr Hh].
  assert (Hlook : rooms (fst (createRoom drawn w)) !! roomNameOf (path req)
                  = Some (length (heap w))) by (by rewrite Hname).
  assert (Hb : broadcasterOf (length (heap w)) (fst (createRoom drawn w)) = None)
    by (unfold broadcasterOf; unfold RoomRef, PC in *; by rewrite Hh).
  split; [exact Hlook|].
  unfold joinSetup. unfold RoomRef, PC in *. rewrite Hlook, Hup, Hpc, Hrole, Htr.
  cbn [String.eqb Ascii.eqb Bool.eqb].
  rewrite broadcasterOf_newSession, Hb.
  split; [reflexivity|].
  cbn [fst]. unfold broadcasterOf. wsimpl'. unfold RoomRef, PC in *.
  rewrite list_lookup_alter_eq, lookup_app_r, Nat.sub_diag by done.
  reflexivity.
Qed.

(** X4: the names in the registry are those it had and those [createRoom]
    returned since: no request and no callback removes or adds a name. *)
Theorem registry_names (evs : list Event) (w : World E) :
  dom (rooms (run evs w)) = dom (rooms w) ∪ list_to_set (returnedIDs evs w).
Proof.
  revert w. induction evs as [|ev evs IH]; intros w.
  - cbn. set_solver.
  - rewrite run_cons, IH. cbn [returnedIDs]. rewrite list_to_set_app_L.
    destruct (isCreate ev) eqn:Hc.
    + destruct ev as [drawn| | | | | | |]; try discriminate.
      cbn [step createRoom fst snd rooms withRooms respRoom].
      rewrite dom_insert_L. set_solver.
    + rewrite step_rooms by done.
      destruct ev; try discriminate; set_solver.
Qed.


(** *** How a call of [joinRoom] leaves the state

    The state after [joinRoom] has returned, in closed form, for each way
    through it that obtains a peer connection. *)

Ltac wnorm :=
  unfold updSession, updRoom, logPrintln, withRooms, withHeap, withSessions,
    withLogs, withForwards, withDelivered;
  cbn [rooms heap sessions logs forwards delivered fst snd];
  unfold PC, RoomRef in *.

Lemma deferred_plain (r : gmap string RoomRef) h (l : list (Session E)) lg fw dl
    (x : Session E) :
  sOnConnectionStateChange x = false ->
  deferred (length l) (mkWorld r h (l ++ [x]) lg fw dl)
  = mkWorld r h (l ++ [sessCloseWS (sessClosePC x)]) lg fw dl.
Proof.
  intros Hx. unfold deferred, wsClose, pcClose, connectionState. wnorm.
  rewrite alter_snoc, lookup_snoc_length.
  replace (sOnConnectionStateChange (sessClosePC x)) with false by (by destruct x).
  wnorm. by rewrite alter_snoc.
Qed.

Lemma deferred_listener (r : gmap string RoomRef) h (l : list (Session E)) lg fw dl
    (x : Session E) :
  sOnConnectionStateChange x = true ->
  deferred (length l) (mkWorld r h (l ++ [x]) lg fw dl)
  = mkWorld r (alter (deleteListener (length l)) (sRoom x) h)
      (l ++ [sessCloseWS (sessClosePC x)]) lg fw dl.
Proof.
  intros Hx. unfold deferred, wsClose, pcClose, connectionState. wnorm.
  rewrite alter_snoc, lookup_snoc_length.
  replace (sOnConnectionStateChange (sessClosePC x)) with true by (by destruct x).
  replace (sRoom (sessClosePC x)) with (sRoom x) by (by destruct x).
  unfold onConnectionStateChange. wnorm. by rewrite alter_snoc.
Qed.

Lemma runSignaling_snoc (r : gmap string RoomRef) h (l : list (Session E)) lg fw dl
    (x : Session E) inbound readErr :
  runSignaling (length l) inbound readErr (mkWorld r h (l ++ [x]) lg fw dl)
  = mkWorld r h
      (l ++ [mkSession (sRoom x) (sBroadcaster x) (sPC x) (sSent x)
               (sTransceivers x) (sOnTrack x) (sOnConnectionStateChange x)
               true false (sPCClosed x) (sWSClosed x)])
      (lg ++ ["WebSocket read error: " +:+ readErr]) fw dl.
Proof.
  unfold runSignaling. wnorm. rewrite lookup_snoc_length.
  rewrite handleSignaling_inert.
  unfold putSig, println, sigOf. wnorm. cbn [pc sent logged onICE].
  by rewrite !alter_snoc.
Qed.

Lemma joinRoom_already (w : World E) req inbound readErr room b e0 :
  rooms w !! roomNameOf (path req) = Some room ->
  broadcasterOf room w = Some b ->
  role req = "broadcaster" ->
  upgradeErr req = None ->
  newPeerConnection req = inr e0 ->
  joinRoom req inbound readErr w
  = (withSessions
       (sessions w ++
        [mkSession room true e0 [FrameError "Room already has a broadcaster"] []
           false false false false true true]) w,
     AlreadyBroadcasting (length (sessions w))).
Proof.
  intros Hroom Hb Hrole Hup Hpc.
  unfold joinRoom, joinSetup. unfold PC, RoomRef in *.
  rewrite Hroom, Hup, Hpc, Hrole. cbn [String.eqb Ascii.eqb Bool.eqb].
  rewrite broadcasterOf_newSession, Hb.
  destruct w as [r h l lg fw dl]. wnorm.
  rewrite alter_snoc, deferred_plain by done. reflexivity.
Qed.

Lemma joinRoom_transceiver_error (w : World E) req inbound readErr room e0 e :
  rooms w !! roomNameOf (path req) = Some room ->
  (role req = "broadcaster" -> broadcasterOf room w = None) ->
  upgradeErr req = None ->
  newPeerConnection req = inr e0 ->
  transceiverErr req = Some e ->
  joinRoom req inbound readErr w
  = (withLogs
       (logs w ++
        [(if (role req =? "broadcaster")%string
          then "AddTransceiver error: " else "Listener AddTransceiver error: ")
         +:+ e])
       (withSessions
          (sessions w ++
           [mkSession room (role req =? "broadcaster")%string e0 [] []
              false false false false true true]) w),
     TransceiverError (length (sessions w))).
Proof.
  intros Hroom Hb Hup Hpc Htr.
  unfold joinRoom, joinSetup. unfold PC, RoomRef in *.
  rewrite Hroom, Hup, Hpc, Htr.
  destruct (String.eqb_spec (role req) "broadcaster") as [Hrole|Hrole].
  - rewrite broadcasterOf_newSession, (Hb Hrole).
    destruct w as [r h l lg fw dl]. wnorm.
    rewrite deferred_plain by done. reflexivity.
  - destruct w as [r h l lg fw dl]. wnorm.
    rewrite deferred_plain by done. reflexivity.
Qed.

Lemma joinRoom_broadcaster_started (w : World E) req inbound readErr room e0 :
  rooms w !! roomNameOf (path req) = Some room ->
  broadcasterOf room w = None ->
  role req = "broadcaster" ->
  upgradeErr req = None ->
  newPeerConnection req = inr e0 ->
  transceiverErr req = None ->
  joinRoom req inbound readErr w
  = (mkWorld (rooms w)
       (alter (setBroadcaster (length (sessions w))) room (heap w))
       (sessions w ++
        [mkSession room true e0 [] [AudioDefault] true false true false true true])
       (logs w ++ ["WebSocket read error: " +:+ readErr])
       (forwards w) (delivered w),
     Started (length (sessions w))).
Proof.
  intros Hroom Hb Hrole Hup Hpc Htr.
  unfold joinRoom, joinSetup. unfold PC, RoomRef in *.
  rewrite Hroom, Hup, Hpc, Hrole, Htr. cbn [String.eqb Ascii.eqb Bool.eqb].
  rewrite broadcasterOf_newSession, Hb.
  destruct w as [r h l lg fw dl]. wnorm.
  rewrite !alter_snoc.
  rewrite runSignaling_snoc, deferred_plain by done. reflexivity.
Qed.

Lemma joinRoom_listener_started (w : World E) req inbound readErr room e0 :
  rooms w !! roomNameOf (path req) = Some room ->
  role req <> "broadcaster" ->
  upgradeErr req = None ->
  newPeerConnection req = inr e0 ->
  transceiverErr req = None ->
  joinRoom req inbound readErr w
  = (mkWorld (rooms w)
       (alter (deleteListener (length (sessions w))) room
          (alter (addListener (length (sessions w))) room (heap w)))
       (sessions w ++
        [mkSession room false e0 [] [AudioRecvonly] false true true false true true])
       (logs w ++ ["WebSocket read error: " +:+ readErr])
       (forwards w) (delivered w),
     Started (length (sessions w))).
Proof.
  intros Hroom Hrole Hup Hpc Htr.
  unfold joinRoom, joinSetup. unfold PC, RoomRef in *.
  rewrite Hroom, Hup, Hpc, Htr.
  destruct (String.eqb_spec (role req) "broadcaster") as [?|_]; [done|].
  destruct w as [r h l lg fw dl]. wnorm.
  rewrite !alter_snoc.
  rewrite runSignaling_snoc, deferred_listener by done. reflexivity.
Qed.


(** The connection a call of [joinRoom] allocated, if it got that far. *)
Definition resultPC (r : JoinResult) : option PC :=
  match r with
  | AlreadyBroadcasting p | TransceiverError p | Started p => Some p
  | HttpError _ _ _ | UpgradeError | PeerConnectionError => None
  end.

(** The session record a finished call leaves behind. *)
Definition finished (room : RoomRef) (isBroadcaster : bool) (e0 : E)
    (out : list OutFrame) (trs : list Transceiver) (track state ice : bool)
    : Session E :=
  mkSession room isBroadcaster e0 out trs track state ice false true true.

(** Every call of [joinRoom] is one of seven cases. *)
Lemma joinRoom_cases (w : World E) req inbound readErr :
  (rooms w !! roomNameOf (path req) = None
   /\ joinRoom req inbound readErr w
      = (w, HttpError 404 "text/plain; charset=utf-8" ("Room not found" +:+ newline)))
  \/ (exists e,
        joinRoom req inbound readErr w
        = (logPrintln ("Upgrade error: " +:+ e) w, UpgradeError))
  \/ (exists e,
        joinRoom req inbound readErr w
        = (logPrintln ("PeerConnection error: " +:+ e) w, PeerConnectionError))
  \/ exists room e0,
       rooms w !! roomNameOf (path req) = Some room
       /\ ((exists b,
              role req = "broadcaster" /\ broadcasterOf room w = Some b
              /\ joinRoom req inbound readErr w
                 = (withSessions
                      (sessions w ++
                       [finished room true e0
                          [FrameError "Room already has a broadcaster"] []
                          false false false]) w,
                    AlreadyBroadcasting (length (sessions w))))
           \/ (exists line,
                 joinRoom req inbound readErr w
                 = (withLogs (logs w ++ [line])
                      (withSessions
                         (sessions w ++
                          [finished room (role req =? "broadcaster")%string e0 [] []
                             false false false]) w),
                    TransceiverError (length (sessions w))))
           \/ (role req = "broadcaster" /\ broadcasterOf room w = None
               /\ joinRoom req inbound readErr w
                  = (mkWorld (rooms w)
                       (alter (setBroadcaster (length (sessions w))) room (heap w))
                       (sessions w ++
                        [finished room true e0 [] [AudioDefault] true false true])
                       (logs w ++ ["WebSocket read error: " +:+ readErr])
                       (forwards w) (delivered w),
                     Started (length (sessions w))))
           \/ (role req <> "broadcaster"
               /\ joinRoom req inbound readErr w
                  = (mkWorld (rooms w)
                       (alter (deleteListener (length (sessions w))) room
                          (alter (addListener (length (sessions w))) room (heap w)))
                       (sessions w ++
                        [finished room false e0 [] [AudioRecvonly] false true true])
                       (logs w ++ ["WebSocket read error: " +:+ readErr])
                       (forwards w) (delivered w),
                     Started (length (sessions w))))).
Proof.
  destruct (rooms w !! roomNameOf (path req)) as [room|] eqn:Hroom.
  2:{ left. split; [done|]. unfold joinRoom, joinSetup. unfold PC, RoomRef in *.
      by rewrite Hroom. }
  right.
  destruct (upgradeErr req) as [e|] eqn:Hup.
  { left. exists e. unfold joinRoom, joinSetup. unfold PC, RoomRef in *.
    by rewrite Hroom, Hup. }
  right.
  destruct (newPeerConnection req) as [e|e0] eqn:Hpc.
  { left. exists e. unfold joinRoom, joinSetup. unfold PC, RoomRef in *.
    by rewrite Hroom, Hup, Hpc. }
  right. exists room, e0. split; [done|].
  destruct (String.eqb_spec (role req) "broadcaster") as [Hrole|Hrole].
  - destruct (broadcasterOf room w) as [b|] eqn:Hb.
    { left. exists b. split; [done|]. split; [done|].
      by apply (joinRoom_already w req inbound readErr room b e0). }
    right.
    destruct (transceiverErr req) as [e|] eqn:Htr.
    + left. eexists.
      rewrite (joinRoom_transceiver_error w req inbound readErr room e0 e) by done.
      by rewrite Hrole.
    + right. left. split; [done|]. split; [done|].
      by apply joinRoom_broadcaster_started.
  - right.
    destruct (transceiverErr req) as [e|] eqn:Htr.
    + left. eexists.
      rewrite (joinRoom_transceiver_error w req inbound readErr room e0 e) by done.
      destruct (String.eqb_spec (role req) "broadcaster"); [done|]. reflexivity.
    + right. right. split; [done|].
      by apply joinRoom_listener_started.
Qed.

Lemma detach_after_attach p room (h : list Room) :
  (forall r, h !! room = Some r -> p ∉ Listeners r) ->
  alter (deleteListener p) room (alter (addListener p) room h) = h.
Proof.
  intros Hfresh. apply list_eq. intros i.
  destruct (decide (room = i)) as [<-|Hne].
  - rewrite !list_lookup_alter_eq.
    destruct (h !! room) as [r|] eqn:Hr; [|done].
    cbn. f_equal. destruct r as [n b ls]. unfold deleteListener, addListener. cbn.
    f_equal. specialize (Hfresh _ eq_refl). cbn in Hfresh. set_solver.
  - by rewrite !list_lookup_alter_ne.
Qed.

(** X5: while a room has a broadcaster, a request with [role=broadcaster]
    that reaches the check is turned away: its websocket gets the one frame
    [{"error":"Room already has a broadcaster"}], no transceiver is added
    and no [OnTrack] handler installed, the connection and the websocket
    are closed, and no room changes. *)
Theorem join_second_broadcaster_rejected (w : World E) (req : JoinRequest E)
    (inbound : list string) (readErr : string) (room : RoomRef) (b : PC) (e0 : E) :
  rooms w !! roomNameOf (path req) = Some room ->
  broadcasterOf room w = Some b ->
  role req = "broadcaster" ->
  upgradeErr req = None ->
  newPeerConnection req = inr e0 ->
  snd (joinRoom req inbound readErr w) = AlreadyBroadcasting (length (sessions w))
  /\ heap (fst (joinRoom req inbound readErr w)) = heap w
  /\ rooms (fst (joinRoom req inbound readErr w)) = rooms w
  /\ sessions (fst (joinRoom req inbound readErr w)) !! length (sessions w)
     = Some (mkSession room true e0
               [FrameError "Room already has a broadcaster"] []
               false false false false true true).
Proof.
  intros Hroom Hb Hrole Hup Hpc.
  rewrite (joinRoom_already w req inbound readErr room b e0) by done.
  cbn [fst snd withSessions heap rooms sessions].
  repeat split. apply lookup_snoc_length.
Qed.

(** X6: a call of [joinRoom], run to its return on a server that started
    empty, changes the rooms in one case only: a broadcaster that was
    started is stored in its room.  Every other call, a listener's whole
    session included, leaves every room as it found it; no call changes the
    registry or the forwarding goroutines. *)
Theorem joinRoom_rooms_effect (evs : list Event) (req : JoinRequest E)
    (inbound : list string) (readErr : string) :
  rooms (fst (joinRoom req inbound readErr (run evs emptyWorld)))
  = rooms (run evs emptyWorld)
  /\ forwards (fst (joinRoom req inbound readErr (run evs emptyWorld)))
     = forwards (run evs emptyWorld)
  /\ (heap (fst (joinRoom req inbound readErr (run evs emptyWorld)))
      = heap (run evs emptyWorld)
      \/ exists room,
           rooms (run evs emptyWorld) !! roomNameOf (path req) = Some room
           /\ role req = "broadcaster"
           /\ broadcasterOf room (run evs emptyWorld) = None
           /\ snd (joinRoom req inbound readErr (run evs emptyWorld))
              = Started (length (sessions (run evs emptyWorld)))
           /\ heap (fst (joinRoom req inbound readErr (run evs emptyWorld)))
              = alter (setBroadcaster (length (sessions (run evs emptyWorld)))) room
                  (heap (run evs emptyWorld))).
Proof.
  pose proof (wf_run evs emptyWorld wf_emptyWorld) as Hwf.
  generalize dependent (run evs emptyWorld). intros w Hwf.
  destruct (joinRoom_cases w req inbound readErr)
    as [[_ ->]|[[e ->]|[[e ->]|(room & e0 & Hroom &
         [(b & _ & _ & ->)|[[line ->]|[(Hrole & Hb & ->)|(Hrole & ->)]]])]]];
    cbn [fst snd rooms heap forwards logPrintln withLogs withSessions];
    try (repeat split; by left).
  - repeat split. right. by exists room.
  - repeat split. left. apply detach_after_attach.
    intros r Hr Hin. pose proof (wf_listeners _ Hwf _ _ _ Hr Hin). lia.
Qed.

(** X7: whichever way [joinRoom] returns after it obtained a peer
    connection, the deferred calls have run: that connection and its
    websocket are closed and its signaling loop is over. *)
Theorem joinRoom_closes_connection (w : World E) (req : JoinRequest E)
    (inbound : list string) (readErr : string) (p : PC) :
  resultPC (snd (joinRoom req inbound readErr w)) = Some p ->
  p = length (sessions w)
  /\ exists ss,
       sessions (fst (joinRoom req inbound readErr w)) !! p = Some ss
       /\ sPCClosed ss = true /\ sWSClosed ss = true /\ sRunning ss = false.
Proof.
  destruct (joinRoom_cases w req inbound readErr)
    as [[_ ->]|[[e ->]|[[e ->]|(room & e0 & Hroom &
         [(b & _ & _ & ->)|[[line ->]|[(Hrole & Hb & ->)|(Hrole & ->)]]])]]];
    cbn [fst snd resultPC sessions withLogs withSessions]; try discriminate;
    intros [= <-]; (split; [done|]); eexists;
    (split; [apply lookup_snoc_length|done]).
Qed.


(** *** Who is in which room *)

(** Every listener of a room is a connection that joined that room as a
    listener, and the broadcaster of a room is a connection that joined
    that room as a broadcaster. *)
Record owned (w : World E) : Prop := mkOwned {
  owned_listener :
    forall room r l,
      heap w !! room = Some r -> l ∈ Listeners r ->
      exists ss,
        sessions w !! l = Some ss /\ sRoom ss = room /\ sBroadcaster ss = false;
  owned_broadcaster :
    forall room r b,
      heap w !! room = Some r -> Broadcaster r = Some b ->
      exists ss,
        sessions w !! b = Some ss /\ sRoom ss = room /\ sBroadcaster ss = true;
}.

(** A change of a session that keeps its room and its role. *)
Definition keepsRole (f : Session E -> Session E) : Prop :=
  forall s, sRoom (f s) = sRoom s /\ sBroadcaster (f s) = sBroadcaster s.

Lemma lookup_alter_keepsRole f p (l : list (Session E)) i ss :
  keepsRole f -> l !! i = Some ss ->
  exists ss',
    alter f p l !! i = Some ss' /\ sRoom ss' = sRoom ss
    /\ sBroadcaster ss' = sBroadcaster ss.
Proof.
  intros Hf Hi. destruct (decide (p = i)) as [->|Hne].
  - rewrite list_lookup_alter_eq, Hi. cbn. exists (f ss).
    destruct (Hf ss). by repeat split.
  - rewrite list_lookup_alter_ne by done. by exists ss.
Qed.

Lemma owned_emptyWorld : owned emptyWorld.
Proof. split; cbn; intros *; by rewrite lookup_nil. Qed.

Lemma owned_updSession p f (w : World E) :
  keepsRole f -> owned w -> owned (updSession p f w).
Proof.
  intros Hf [H1 H2]. split; wnorm; intros room r x Hr Hx.
  - destruct (H1 _ _ _ Hr Hx) as (ss & Hs & <- & Hb).
    destruct (lookup_alter_keepsRole f p _ _ _ Hf Hs) as (ss' & ? & ? & ?).
    exists ss'. repeat split; congruence.
  - destruct (H2 _ _ _ Hr Hx) as (ss & Hs & <- & Hb).
    destruct (lookup_alter_keepsRole f p _ _ _ Hf Hs) as (ss' & ? & ? & ?).
    exists ss'. repeat split; congruence.
Qed.

Lemma owned_withLogs lg (w : World E) : owned w -> owned (withLogs lg w).
Proof. intros [H1 H2]. by split. Qed.

Lemma owned_putSig p sg (w : World E) : owned w -> owned (putSig p sg w).
Proof.
  intros Hw. apply owned_withLogs, owned_updSession; [|done]. by intros [].
Qed.

Lemma owned_newSession ss (w : World E) :
  owned w -> owned (withSessions (sessions w ++ [ss]) w).
Proof.
  intros [H1 H2]. split; wnorm; intros room r x Hr Hx.
  - destruct (H1 _ _ _ Hr Hx) as (s & Hs & ? & ?). exists s.
    repeat split; try done. by apply lookup_app_l_Some.
  - destruct (H2 _ _ _ Hr Hx) as (s & Hs & ? & ?). exists s.
    repeat split; try done. by apply lookup_app_l_Some.
Qed.

Lemma owned_updRoom room f (w : World E) :
  (forall r l,
     l ∈ Listeners (f r) ->
     l ∈ Listeners r
     \/ exists ss,
          sessions w !! l = Some ss /\ sRoom ss = room /\ sBroadcaster ss = false) ->
  (forall r b,
     Broadcaster (f r) = Some b ->
     Broadcaster r = Some b
     \/ exists ss,
          sessions w !! b = Some ss /\ sRoom ss = room /\ sBroadcaster ss = true) ->
  owned w -> owned (updRoom room f w).
Proof.
  intros HfL HfB [H1 H2]. split; wnorm; intros room' r x Hr Hx.
  - destruct (decide (room = room')) as [<-|Hne].
    + rewrite list_lookup_alter_eq in Hr.
      destruct (heap w !! room) as [r0|] eqn:Hr0; [|discriminate].
      injection Hr as <-. destruct (HfL _ _ Hx); eauto.
    + rewrite list_lookup_alter_ne in Hr by done. eauto.
  - destruct (decide (room = room')) as [<-|Hne].
    + rewrite list_lookup_alter_eq in Hr.
      destruct (heap w !! room) as [r0|] eqn:Hr0; [|discriminate].
      injection Hr as <-. destruct (HfB _ _ Hx); eauto.
    + rewrite list_lookup_alter_ne in Hr by done. eauto.
Qed.

Lemma owned_connectionState p s (w : World E) :
  owned w -> owned (connectionState p s w).
Proof.
  intros Hw. unfold connectionState.
  destruct (sessions w !! p) as [ss|]; [|done].
  destruct (sOnConnectionStateChange ss); [|done].
  unfold onConnectionStateChange.
  destruct s; try done; apply owned_updRoom; try done;
    try (intros r l; cbn; intros [Hl _]%elem_of_difference; by left);
    intros r b; cbn; by left.
Qed.

Lemma owned_deferred p (w : World E) : owned w -> owned (deferred p w).
Proof.
  intros Hw. unfold deferred, wsClose, pcClose.
  apply owned_updSession; [by intros []|].
  apply owned_connectionState, owned_updSession; [by intros []|done].
Qed.

Lemma owned_createRoom drawn (w : World E) :
  owned w -> owned (fst (createRoom drawn w)).
Proof.
  intros [H1 H2]. split; cbn [createRoom fst]; wnorm; intros room r x Hr Hx.
  - apply lookup_app_Some in Hr as [Hr|[_ Hr]]; [eauto|].
    apply list_lookup_singleton_Some in Hr as [_ <-]. cbn in Hx. set_solver.
  - apply lookup_app_Some in Hr as [Hr|[_ Hr]]; [eauto|].
    apply list_lookup_singleton_Some in Hr as [_ <-]. discriminate.
Qed.

Lemma owned_onTrack room track (w : World E) :
  owned w -> owned (onTrack room track w).
Proof.
  intros [H1 H2]. unfold onTrack. wnorm.
  destruct (heap w !! room); by split.
Qed.

Lemma owned_joinSetup req (w : World E) :
  owned w -> owned (fst (joinSetup req w)).
Proof.
  intros Hw. unfold joinSetup.
  destruct (rooms w !! roomNameOf (path req)) as [room|]; [|done].
  destruct (upgradeErr req); [by apply owned_withLogs|].
  destruct (newPeerConnection req) as [e|e0]; [by apply owned_withLogs|].
  destruct (role req =? "broadcaster")%string.
  - destruct (broadcasterOf room _).
    + apply owned_deferred, owned_updSession; [by intros []|].
      by apply owned_newSession.
    + destruct (transceiverErr req).
      * by apply owned_deferred, owned_withLogs, owned_newSession.
      * cbn [fst]. apply owned_updSession; [by intros []|].
        apply owned_updSession; [by intros []|].
        apply owned_updRoom.
        -- intros r l. cbn. by left.
        -- intros r b. cbn. intros [= <-]. right.
           wnorm. rewrite alter_snoc. eexists. by rewrite lookup_snoc_length.
        -- apply owned_updSession; [by intros []|]. by apply owned_newSession.
  - destruct (transceiverErr req).
    + by apply owned_deferred, owned_withLogs, owned_newSession.
    + cbn [fst]. apply owned_updSession; [by intros []|].
      apply owned_updSession; [by intros []|].
      apply owned_updRoom.
      * intros r l. cbn. intros [->%elem_of_singleton|Hl]%elem_of_union; [|by left].
        right. wnorm. rewrite alter_snoc. eexists. by rewrite lookup_snoc_length.
      * intros r b. cbn. by left.
      * apply owned_updSession; [by intros []|]. by apply owned_newSession.
Qed.

Lemma owned_step ev (w : World E) : owned w -> owned (step ev w).
Proof.
  intros Hw. destruct ev as [drawn|req|p msg|p e|p c|p s|p track|track l f]; cbn [step].
  - by apply owned_createRoom.
  - by apply owned_joinSetup.
  - destruct (sessions w !! p) as [ss|]; [|done].
    destruct (sRunning ss); [|done]. by apply owned_putSig.
  - destruct (sessions w !! p) as [ss|]; [|done].
    destruct (sRunning ss); [|done].
    apply owned_deferred, owned_updSession; [by intros []|].
    by apply owned_withLogs.
  - destruct (sessions w !! p) as [ss|]; [|done].
    destruct (sOnICE ss && negb (sWSClosed ss)); [|done]. by apply owned_putSig.
  - by apply owned_connectionState.
  - destruct (sessions w !! p) as [ss|]; [|done].
    destruct (sOnTrack ss); [|done]. by apply owned_onTrack.
  - case_bool_decide; [|done]. destruct Hw as [H1 H2]. by split.
Qed.

Lemma owned_run evs : forall w : World E, owned w -> owned (run evs w).
Proof.
  induction evs as [|ev evs IH]; intros w Hw; [done|].
  rewrite run_cons. by apply IH, owned_step.
Qed.

(** X8: on a server that started empty, a connection is in the listener
    set of at most one room, the room it joined, and it is never the
    broadcaster of any room. *)
Theorem listener_of_one_room (evs : list Event) (room1 room2 : RoomRef) (l : PC) :
  l ∈ listenersOf room1 (run evs emptyWorld) ->
  l ∈ listenersOf room2 (run evs emptyWorld) ->
  room1 = room2
  /\ (exists ss,
        sessions (run evs emptyWorld) !! l = Some ss
        /\ sRoom ss = room1 /\ sBroadcaster ss = false)
  /\ (forall room, broadcasterOf room (run evs emptyWorld) <> Some l).
Proof.
  pose proof (owned_run evs emptyWorld owned_emptyWorld) as [H1 H2].
  unfold listenersOf, broadcasterOf.
  destruct (heap (run evs emptyWorld) !! room1) as [r1|] eqn:Hr1; [|set_solver].
  destruct (heap (run evs emptyWorld) !! room2) as [r2|] eqn:Hr2; [|set_solver].
  intros Hl1 Hl2.
  destruct (H1 _ _ _ Hr1 Hl1) as (ss1 & Hs1 & Hroom1 & Hb1).
  destruct (H1 _ _ _ Hr2 Hl2) as (ss2 & Hs2 & Hroom2 & Hb2).
  split; [congruence|]. split; [by exists ss1|].
  intros room. destruct (heap (run evs emptyWorld) !! room) as [r|] eqn:Hr; [|done].
  intros Hb. destruct (H2 _ _ _ Hr Hb) as (ss & Hs & _ & Hbt). congruence.
Qed.


(** *** What stays of a room *)

(** [later r r']: the room [r'] has the name of [r], and a broadcaster if
    [r] has one. *)
Definition later (r r' : Room) : Prop :=
  Name r' = Name r /\ (is_Some (Broadcaster r) -> is_Some (Broadcaster r')).

(** Every room of [w] is still there in [w'], as a later room. *)
Definition roomsKept (w w' : World E) : Prop :=
  forall room r,
    heap w !! room = Some r ->
    exists r', heap w' !! room = Some r' /\ later r r'.

Lemma roomsKept_refl (w : World E) : roomsKept w w.
Proof. intros room r Hr. exists r. by repeat split. Qed.

Lemma roomsKept_trans (w1 w2 w3 : World E) :
  roomsKept w1 w2 -> roomsKept w2 w3 -> roomsKept w1 w3.
Proof.
  intros H12 H23 room r Hr.
  destruct (H12 _ _ Hr) as (r2 & Hr2 & Hn2 & Hb2).
  destruct (H23 _ _ Hr2) as (r3 & Hr3 & Hn3 & Hb3).
  exists r3. repeat split; [done|congruence|auto].
Qed.

Lemma roomsKept_same_heap (w w' : World E) : heap w' = heap w -> roomsKept w w'.
Proof. intros Hh room r Hr. exists r. rewrite Hh. by repeat split. Qed.

Lemma roomsKept_updRoom room f (w : World E) :
  (forall r, later r (f r)) -> roomsKept w (updRoom room f w).
Proof.
  intros Hf room' r Hr. wnorm.
  destruct (decide (room = room')) as [<-|Hne].
  - exists (f r). by rewrite list_lookup_alter_eq, Hr.
  - exists r. rewrite list_lookup_alter_ne by done. by repeat split.
Qed.

Lemma roomsKept_connectionState p s (w : World E) :
  roomsKept w (connectionState p s w).
Proof.
  unfold connectionState.
  destruct (sessions w !! p) as [ss|]; [|apply roomsKept_refl].
  destruct (sOnConnectionStateChange ss); [|apply roomsKept_refl].
  unfold onConnectionStateChange.
  destruct s; try apply roomsKept_refl; by apply roomsKept_updRoom.
Qed.

Lemma roomsKept_deferred p (w : World E) : roomsKept w (deferred p w).
Proof.
  unfold deferred, wsClose, pcClose.
  eapply roomsKept_trans; [|by apply roomsKept_same_heap].
  eapply roomsKept_trans; [|apply roomsKept_connectionState].
  by apply roomsKept_same_heap.
Qed.

Lemma roomsKept_joinSetup req (w : World E) : roomsKept w (fst (joinSetup req w)).
Proof.
  unfold joinSetup.
  destruct (rooms w !! roomNameOf (path req)) as [room|]; [|apply roomsKept_refl].
  destruct (upgradeErr req); [by apply roomsKept_same_heap|].
  destruct (newPeerConnection req) as [e|e0]; [by apply roomsKept_same_heap|].
  destruct (role req =? "broadcaster")%string;
    [destruct (broadcasterOf room _)|]; try destruct (transceiverErr req); cbn [fst];
    first
      [ eapply roomsKept_trans; [|apply roomsKept_deferred];
        by apply roomsKept_same_heap
      | eapply roomsKept_trans; [|by apply roomsKept_same_heap];
        eapply roomsKept_trans; [|by apply roomsKept_same_heap];
        eapply roomsKept_trans; [|by apply roomsKept_updRoom];
        by apply roomsKept_same_heap ].
Qed.

Lemma roomsKept_step ev (w : World E) : roomsKept w (step ev w).
Proof.
  destruct ev as [drawn|req|p msg|p e|p c|p s|p track|track l f]; cbn [step].
  - intros room r Hr. exists r. cbn [createRoom fst]. wnorm.
    split; [by apply lookup_app_l_Some|by split].
  - apply roomsKept_joinSetup.
  - destruct (sessions w !! p) as [ss|]; [|apply roomsKept_refl].
    destruct (sRunning ss); [|apply roomsKept_refl]. by apply roomsKept_same_heap.
  - destruct (sessions w !! p) as [ss|]; [|apply roomsKept_refl].
    destruct (sRunning ss); [|apply roomsKept_refl].
    eapply roomsKept_trans; [|apply roomsKept_deferred]. by apply roomsKept_same_heap.
  - destruct (sessions w !! p) as [ss|]; [|apply roomsKept_refl].
    destruct (sOnICE ss && negb (sWSClosed ss)); [|apply roomsKept_refl].
    by apply roomsKept_same_heap.
  - apply roomsKept_connectionState.
  - destruct (sessions w !! p) as [ss|]; [|apply roomsKept_refl].
    destruct (sOnTrack ss); [|apply roomsKept_refl].
    apply roomsKept_same_heap. unfold onTrack. wnorm.
    by case_match.
  - case_bool_decide; [|apply roomsKept_refl]. by apply roomsKept_same_heap.
Qed.

Lemma roomsKept_run evs : forall w : World E, roomsKept w (run evs w).
Proof.
  induction evs as [|ev evs IH]; intros w; [apply roomsKept_refl|].
  rewrite run_cons. eapply roomsKept_trans; [apply roomsKept_step|apply IH].
Qed.

(** X9: no request and no callback ever frees a room, renames it, or
    empties its broadcaster field: a room that has a broadcaster has one
    after any further events, so a later request with [role=broadcaster]
    for it that reaches the check is turned away. *)
Theorem broadcaster_field_never_cleared (evs : list Event) (w : World E)
    (req : JoinRequest E) (inbound : list string) (readErr : string)
    (room : RoomRef) (r : Room) (b : PC) (e0 : E) :
  heap w !! room = Some r ->
  Broadcaster r = Some b ->
  rooms (run evs w) !! roomNameOf (path req) = Some room ->
  role req = "broadcaster" ->
  upgradeErr req = None ->
  newPeerConnection req = inr e0 ->
  (exists r',
     heap (run evs w) !! room = Some r' /\ Name r' = Name r
     /\ is_Some (Broadcaster r'))
  /\ snd (joinRoom req inbound readErr (run evs w))
     = AlreadyBroadcasting (length (sessions (run evs w))).
Proof.
  intros Hr Hb Hroom Hrole Hup Hpc.
  destruct (roomsKept_run evs w _ _ Hr) as (r' & Hr' & Hn & Hs).
  destruct (Hs ltac:(by rewrite Hb)) as [b' Hb'].
  split; [exists r'; by repeat split|].
  rewrite (joinRoom_already (run evs w) req inbound readErr room b' e0); try done.
  unfold broadcasterOf. unfold PC, RoomRef in *. by rewrite Hr'.
Qed.

(** *** The state handler of a listener *)

Lemma alter_alter_same {A} (f : A -> A) i (l : list A) :
  (forall x, f (f x) = f x) -> alter f i (alter f i l) = alter f i l.
Proof.
  intros Hf. apply list_eq. intros j. destruct (decide (i = j)) as [<-|Hne].
  - rewrite !list_lookup_alter_eq. destruct (l !! i); cbn; by rewrite ?Hf.
  - by rewrite !list_lookup_alter_ne.
Qed.

(** X10: the handler a listener installs with [OnConnectionStateChange]
    takes the connection out of its room on [Closed] and on [Failed],
    leaves the other listeners and the broadcaster, and does the same when
    it runs again. *)
Theorem state_handler_detaches (room : RoomRef) (p : PC) (w : World E) :
  listenersOf room (onConnectionStateChange room p PeerConnectionStateClosed w)
  = listenersOf room w ∖ {[p]}
  /\ listenersOf room (onConnectionStateChange room p PeerConnectionStateFailed w)
     = listenersOf room w ∖ {[p]}
  /\ broadcasterOf room (onConnectionStateChange room p PeerConnectionStateClosed w)
     = broadcasterOf room w
  /\ onConnectionStateChange room p PeerConnectionStateClosed
       (onConnectionStateChange room p PeerConnectionStateFailed w)
     = onConnectionStateChange room p PeerConnectionStateFailed w.
Proof.
  unfold onConnectionStateChange, listenersOf, broadcasterOf. wnorm.
  rewrite !list_lookup_alter_eq.
  destruct (heap w !! room) as [r|] eqn:Hr; cbn.
  - repeat split; try done.
    rewrite alter_alter_same; [done|].
    intros [n b ls]. unfold deleteListener. cbn. f_equal. set_solver.
  - repeat split; try set_solver.
    rewrite alter_alter_same; [done|].
    intros [n b ls]. unfold deleteListener. cbn. f_equal. set_solver.
Qed.

(** X11: the handler changes nothing on any other state, and nothing when
    the connection is not in the room's listener set: removing an absent
    entry is no error. *)
Theorem state_handler_noop (room : RoomRef) (p : PC) (s : PeerConnectionState)
    (w : World E) :
  (s <> PeerConnectionStateClosed /\ s <> PeerConnectionStateFailed)
  \/ p ∉ listenersOf room w ->
  onConnectionStateChange room p s w = w.
Proof.
  intros Hcase. unfold onConnectionStateChange.
  assert (Hdel : p ∉ listenersOf room w -> updRoom room (deleteListener p) w = w).
  { clear Hcase. intros Hp. destruct w as [r h l lg fw dl]. wnorm. f_equal.
    apply list_eq. intros i.
    destruct (decide (room = i)) as [<-|Hne]; [|by rewrite list_lookup_alter_ne].
    rewrite list_lookup_alter_eq. unfold listenersOf in Hp. cbn in Hp.
    unfold PC, RoomRef in *.
    destruct (h !! room) as [[n b ls]|]; [|done].
    cbn. f_equal. unfold deleteListener. cbn in *. f_equal. set_solver. }
  destruct s; try done; destruct Hcase as [[? ?]|Hp]; try done; by apply Hdel.
Qed.


(** *** Attaching a listener and fanning out *)

(** X12: a request whose role is anything but [broadcaster], once its
    upgrade, its peer connection and its transceiver succeed, is started as
    a listener whatever the room holds: its connection is added to the
    listeners of the room it named, with a receive-only transceiver and the
    state handler installed; the broadcaster of the room and every other
    room stay as they were. *)
Theorem listener_attach_effect (w : World E) (req : JoinRequest E)
    (room : RoomRef) (r : Room) (e0 : E) :
  rooms w !! roomNameOf (path req) = Some room ->
  heap w !! room = Some r ->
  role req <> "broadcaster" ->
  upgradeErr req = None ->
  newPeerConnection req = inr e0 ->
  transceiverErr req = None ->
  snd (joinSetup req w) = Started (length (sessions w))
  /\ heap (fst (joinSetup req w)) !! room
     = Some (mkRoom (Name r) (Broadcaster r) ({[length (sessions w)]} ∪ Listeners r))
  /\ (forall room', room' <> room ->
        heap (fst (joinSetup req w)) !! room' = heap w !! room')
  /\ sessions (fst (joinSetup req w)) !! length (sessions w)
     = Some (mkSession room false e0 [] [AudioRecvonly] false true true true
               false false).
Proof.
  intros Hroom Hr Hrole Hup Hpc Htr.
  unfold joinSetup. unfold PC, RoomRef in *.
  rewrite Hroom, Hup, Hpc, Htr.
  destruct (String.eqb_spec (role req) "broadcaster") as [?|_]; [done|].
  destruct w as [rs h l lg fw dl]. wnorm. cbn [heap sessions] in *.
  rewrite !alter_snoc, lookup_snoc_length, list_lookup_alter_eq, Hr.
  repeat split; try done.
  intros room' Hne. by rewrite list_lookup_alter_ne.
Qed.

(** X13: when a track of a broadcaster begins, [OnTrack] starts one
    [forwardTrack] goroutine for every listener in the room at that moment
    and for nobody else, and touches neither rooms nor sessions. *)
Theorem fanout_reaches_current_listeners (p : PC) (t : TrackRemote) (w : World E)
    (ss : Session E) :
  sessions w !! p = Some ss ->
  sOnTrack ss = true ->
  (forall t0 l,
     (t0, l) ∈ forwards (step (EvTrack p t) w)
     <-> (t0, l) ∈ forwards w \/ (t0 = t /\ l ∈ listenersOf (sRoom ss) w))
  /\ length (forwards (step (EvTrack p t) w))
     = length (forwards w) + size (listenersOf (sRoom ss) w)
  /\ heap (step (EvTrack p t) w) = heap w
  /\ sessions (step (EvTrack p t) w) = sessions w.
Proof.
  intros Hp Hon.
  rewrite (step_track_fanout p t w ss Hp Hon).
  split; [|split].
  - intros t0 l. rewrite elem_of_app, list_elem_of_fmap. split.
    + intros [?|(l' & [= -> ->] & Hl%elem_of_elements)]; [by left|by right].
    + intros [?|[-> Hl]]; [by left|]. right. exists l.
      split; [done|by apply elem_of_elements].
  - by rewrite length_app, length_fmap.
  - cbn [step]. unfold PC, RoomRef in *. rewrite Hp, Hon. unfold onTrack. wnorm.
    by case_match.
Qed.

(** *** The signaling loop *)

(** X14: whatever messages arrive and in whatever role, [handleSignaling]
    makes no call on the endpoint and writes no frame; when the read fails
    it has printed that one error and nothing else. *)
Theorem handleSignaling_never_negotiates (isBroadcaster : bool)
    (inbound : list string) (readErr : string) (s : Sig E) :
  pc (handleSignaling isBroadcaster inbound readErr s) = pc s
  /\ sent (handleSignaling isBroadcaster inbound readErr s) = sent s
  /\ logged (handleSignaling isBroadcaster inbound readErr s)
     = (logged s ++ ["WebSocket read error: " +:+ readErr])%list.
Proof. by rewrite handleSignaling_inert. Qed.

(** X15: entered with any tag and any payload, the switch of
    [handleSignaling] writes at most one frame, and that frame is an answer
    to an offer on a broadcaster session: a listener session is never
    written to, and neither [answer] nor [candidate] is. *)
Theorem switch_writes_at_most_one_answer (isBroadcaster : bool) (msgType : string)
    (msgMap : gmap string Json.RawMessage) (s : Sig E) :
  sent (dispatch isBroadcaster msgType msgMap s) = sent s
  \/ (isBroadcaster = true /\ msgType = "offer"
      /\ exists answer,
           sent (dispatch isBroadcaster msgType msgMap s)
           = (sent s ++ [FrameAnswer answer])%list).
Proof.
  unfold dispatch.
  destruct (String.eqb_spec msgType "offer") as [->|_].
  - destruct isBroadcaster; cbn [negb]; [|by left].
    destruct (unmarshalSessionDescription _) as [offer|]; [|by left].
    destruct (SetRemoteDescription offer (pc s)) as [e1 [err|]]; [by left|].
    destruct (CreateAnswer e1) as [e2 [err|answer]]; [by left|].
    destruct (SetLocalDescription answer e2) as [e3 [err|]];
      right; repeat split; by exists answer.
  - destruct (String.eqb_spec msgType "answer") as [->|_].
    + destruct isBroadcaster; [by left|].
      destruct (unmarshalSessionDescription _); by left.
    + destruct (String.eqb_spec msgType "candidate") as [->|_]; [|by left].
      destruct (unmarshalICECandidateInit _); by left.
Qed.

(** X16: in the offer case a failure of [SetLocalDescription] is printed
    and the answer frame is still written. *)
Theorem answer_sent_when_local_description_fails
    (msgMap : gmap string Json.RawMessage) (s : Sig E)
    (offer answer : SessionDescription) (e1 e2 e3 : E) (err : string) :
  unmarshalSessionDescription (Json.index msgMap "sdp") = Some offer ->
  SetRemoteDescription offer (pc s) = (e1, None) ->
  CreateAnswer e1 = (e2, inr answer) ->
  SetLocalDescription answer e2 = (e3, Some err) ->
  dispatch true "offer" msgMap s
  = mkSig e3 (sent s ++ [FrameAnswer answer])
      (logged s ++ ["SetLocalDescription error: " +:+ err]) (onICE s).
Proof.
  intros Hsd H1 H2 H3. unfold dispatch. cbn [String.eqb Ascii.eqb Bool.eqb negb].
  by rewrite Hsd, H1, H2, H3.
Qed.

End MoreServer.


(** *** The loop of the stripped variant *)

(** [handleSignaling] of the stripped variant: the candidate handler is
    installed, then every message read is handled until the read fails;
    nothing is printed. *)
Definition minimalHandleSignaling {E : Type} {api : PeerConnectionAPI E}
    {dec : PayloadDecoders} (broadcaster : bool) (inbound : list string)
    (s : Sig E) : Sig E :=
  let s := mkSig (pc s) (sent s) (logged s) true in
  foldl (fun s msg => Minimal.handleMessage broadcaster msg s) s inbound.

(** X17: the stripped variant's loop makes no call on the endpoint and
    writes no frame either, whatever arrives. *)
Theorem minimal_loop_never_negotiates {E : Type} {api : PeerConnectionAPI E}
    {dec : PayloadDecoders} (broadcaster : bool) (inbound : list string)
    (s : Sig E) :
  minimalHandleSignaling broadcaster inbound s
  = mkSig (pc s) (sent s) (logged s) true.
Proof.
  unfold minimalHandleSignaling.
  induction inbound as [|msg inbound IH] using rev_ind; [done|].
  by rewrite foldl_app, IH; cbn [foldl]; rewrite Minimal.minimal_handleMessage_inert.
Qed.

(** *** Forwarding, frame by frame *)

Lemma substring_prefix_length m :
  forall s, m <= String.length s -> String.length (String.substring 0 m s) = m.
Proof.
  induction m as [|m IH]; intros s Hm; [by destruct s|].
  destruct s as [|x s]; cbn in Hm; [lia|]. cbn. rewrite IH; lia.
Qed.

Lemma sliceTo_Some buf n data :
  sliceTo buf n = Some data ->
  (0 <= n <= Z.of_nat (String.length buf))%Z
  /\ data = String.substring 0 (Z.to_nat n) buf
  /\ String.length data = Z.to_nat n.
Proof.
  unfold sliceTo.
  destruct (0 <=? n)%Z eqn:H0; [|discriminate].
  destruct (n <=? Z.of_nat (String.length buf))%Z eqn:H1; [|discriminate].
  cbn. intros [= <-]. apply Z.leb_le in H0, H1.
  repeat split; try done. apply substring_prefix_length. lia.
Qed.

Lemma sliceTo_None buf n :
  sliceTo buf n = None <-> (n < 0 \/ Z.of_nat (String.length buf) < n)%Z.
Proof.
  unfold sliceTo.
  destruct (0 <=? n)%Z eqn:H0; destruct (n <=? Z.of_nat (String.length buf))%Z eqn:H1;
    cbn; rewrite ?Z.leb_le, ?Z.leb_gt in *; split; try done; try lia; intros _; lia.
Qed.

Lemma forwardLoop_faithful_only reads :
  forall rtpBuf,
    forwardLoop rtpBuf reads = (sampleOf <$> reads, Returned) ->
    Forall (fun f =>
              frameN f = Z.of_nat (String.length (framePayload f))
              /\ String.length (framePayload f) <= String.length rtpBuf) reads.
Proof.
  induction reads as [|f reads IH]; intros rtpBuf; [by constructor|].
  cbn [forwardLoop fmap list_fmap].
  destruct (sliceTo _ _) as [data|] eqn:Hs; [|discriminate].
  destruct (forwardLoop _ reads) as [samples e] eqn:Hl.
  unfold sampleOf at 1. intros [= Hdata Hsamples He]. subst e samples.
  apply sliceTo_Some in Hs as (Hn & _ & Hlen).
  rewrite copy_length in Hn. rewrite Hdata in Hlen.
  constructor; [split; lia|].
  apply IH in Hl. eapply Forall_impl; [exact Hl|].
  intros f' [? ?]. by rewrite copy_length in *.
Qed.

(** X18: [forwardTrack] hands on every frame it reads, bytes and duration
    unchanged, and returns at the failing read, exactly when every frame
    has at most 1400 payload bytes and a count equal to the length of its
    payload. *)
Theorem forwardTrack_faithful_iff (reads : list Frame) :
  forwardTrack None None reads = (sampleOf <$> reads, Returned)
  <-> Forall (fun f =>
                frameN f = Z.of_nat (String.length (framePayload f))
                /\ String.length (framePayload f) <= 1400) reads.
Proof.
  split.
  - unfold forwardTrack. intros H%forwardLoop_faithful_only.
    eapply Forall_impl; [exact H|]. intros f [? ?]. by rewrite make_length in *.
  - apply forwardTrack_within_buffer.
Qed.

Lemma forwardLoop_panics reads :
  forall rtpBuf,
    snd (forwardLoop rtpBuf reads) = Panicked
    <-> Exists (fun f =>
                  (frameN f < 0 \/ Z.of_nat (String.length rtpBuf) < frameN f)%Z)
          reads.
Proof.
  induction reads as [|f reads IH]; intros rtpBuf.
  - cbn. split; [discriminate|]. by intros ?%Exists_nil.
  - cbn [forwardLoop]. rewrite Exists_cons.
    destruct (sliceTo _ _) as [data|] eqn:Hs.
    + apply sliceTo_Some in Hs as (Hn & _ & _). rewrite copy_length in Hn.
      destruct (forwardLoop _ reads) as [samples e] eqn:Hl.
      specialize (IH (copy rtpBuf (framePayload f))).
      rewrite Hl, copy_length in IH. cbn [snd] in *. rewrite IH.
      split; [by right|]. intros [?|?]; [lia|done].
    + apply sliceTo_None in Hs. rewrite copy_length in Hs. cbn [snd].
      split; [by left|done].
Qed.

(** X19: the goroutine of [forwardTrack] stops in a run-time panic exactly
    when some frame it reads has a count below 0 or above 1400; otherwise
    it returns at the failing read. *)
Theorem forwardTrack_panics_iff (reads : list Frame) :
  snd (forwardTrack None None reads) = Panicked
  <-> Exists (fun f => (frameN f < 0 \/ 1400 < frameN f)%Z) reads.
Proof.
  unfold forwardTrack. rewrite forwardLoop_panics, make_length. done.
Qed.

Lemma forwardLoop_samples reads :
  forall rtpBuf,
    Forall2 (fun s f =>
               Duration s = frameDuration f
               /\ String.length (Data s) = Z.to_nat (frameN f))
      (fst (forwardLoop rtpBuf reads))
      (take (length (fst (forwardLoop rtpBuf reads))) reads).
Proof.
  induction reads as [|f reads IH]; intros rtpBuf; [constructor|].
  cbn [forwardLoop].
  destruct (sliceTo _ _) as [data|] eqn:Hs; [|constructor].
  apply sliceTo_Some in Hs as (_ & _ & Hlen).
  specialize (IH (copy rtpBuf (framePayload f))).
  destruct (forwardLoop _ reads) as [samples e]. cbn [fst length take] in *.
  by constructor.
Qed.

(** X20: every sample [forwardTrack] writes carries the duration of the
    frame it was read with and has as many bytes as the count read,
    whether or not that is the length of the payload; there is at most one
    sample for a frame read, in the order of the reads. *)
Theorem forwardTrack_samples (newTrackErr addTrackErr : error) (reads : list Frame) :
  Forall2 (fun s f =>
             Duration s = frameDuration f
             /\ String.length (Data s) = Z.to_nat (frameN f))
    (fst (forwardTrack newTrackErr addTrackErr reads))
    (take (length (fst (forwardTrack newTrackErr addTrackErr reads))) reads)
  /\ length (fst (forwardTrack newTrackErr addTrackErr reads)) <= length reads.
Proof.
  assert (H2 :
    Forall2 (fun s f =>
               Duration s = frameDuration f
               /\ String.length (Data s) = Z.to_nat (frameN f))
      (fst (forwardTrack newTrackErr addTrackErr reads))
      (take (length (fst (forwardTrack newTrackErr addTrackErr reads))) reads)).
  { unfold forwardTrack. destruct newTrackErr; [constructor|].
    destruct addTrackErr; [constructor|]. apply forwardLoop_samples. }
  split; [exact H2|].
  apply Forall2_length in H2. rewrite length_take in H2. lia.
Qed.


(** *** The mutex of a room *)

Definition inCritical (a : Attach.Attempt) : Prop :=
  Attach.aPoint a = Attach.AtStore \/ Attach.aPoint a = Attach.AtUnlock.

Definition terminal (a : Attach.Attempt) : Prop :=
  Attach.aPoint a = Attach.Attached \/ Attach.aPoint a = Attach.Rejected
  \/ Attach.aPoint a = Attach.Failed.

(** [room.mu] is held by a goroutine exactly while that goroutine stands
    between its [Lock] and its [Unlock]. *)
Definition lockInv (s : Attach.Sys) : Prop :=
  forall i,
    Attach.mu s = Some i
    <-> exists a, Attach.attempts s !! i = Some a /\ inCritical a.

Lemma lockInv_arrive r n : lockInv (Attach.arrive r n).
Proof.
  intros i. cbn. split; [discriminate|].
  intros (a & Ha & Hc). unfold Attach.arrive in Ha. cbn [Attach.attempts] in Ha.
  change (map ?f ?l) with (f <$> l) in Ha.
  rewrite list_lookup_fmap in Ha.
  apply fmap_Some in Ha as (x & _ & ->).
  destruct Hc; discriminate.
Qed.

(** What one statement does to the mutex. *)
Lemma stepOf_inv i s s' :
  Attach.stepOf i s = Some s' ->
  exists a a',
    Attach.attempts s !! i = Some a
    /\ Attach.attempts s' = <[i:=a']> (Attach.attempts s)
    /\ ((~ inCritical a /\ ~ inCritical a' /\ Attach.mu s' = Attach.mu s)
        \/ (Attach.aPoint a = Attach.AtLock /\ Attach.aPoint a' = Attach.AtStore
            /\ Attach.mu s = None /\ Attach.mu s' = Some i)
        \/ (Attach.aPoint a = Attach.AtStore /\ Attach.aPoint a' = Attach.AtUnlock
            /\ Attach.mu s' = Attach.mu s)
        \/ (Attach.aPoint a = Attach.AtUnlock /\ Attach.aPoint a' = Attach.Attached
            /\ Attach.mu s' = None)).
Proof.
  unfold Attach.stepOf, inCritical.
  destruct (Attach.attempts s !! i) as [a|] eqn:Ha; [|discriminate].
  intros Hstep. exists a.
  destruct (Attach.aPoint a) eqn:Hpt; try discriminate.
  - destruct (Broadcaster (Attach.room s)); injection Hstep as <-;
      eexists; (split; [done|]); (split; [reflexivity|]); left; cbn;
      repeat split; try done; intros [?|?]; discriminate.
  - destruct (Attach.aTransceiverErr a); injection Hstep as <-;
      eexists; (split; [done|]); (split; [reflexivity|]); left; cbn;
      repeat split; try done; intros [?|?]; discriminate.
  - destruct (Attach.mu s) eqn:Hmu; [discriminate|]. injection Hstep as <-.
    eexists. split; [done|]. split; [reflexivity|]. right. left. by cbn.
  - injection Hstep as <-.
    eexists. split; [done|]. split; [reflexivity|]. right. right. left. by cbn.
  - injection Hstep as <-.
    eexists. split; [done|]. split; [reflexivity|]. right. right. right. by cbn.
Qed.

Lemma lockInv_step i s s' :
  Attach.stepOf i s = Some s' -> lockInv s -> lockInv s'.
Proof.
  intros (a & a' & Ha & Hatt & Hcase)%stepOf_inv Hinv j.
  pose proof (lookup_lt_Some _ _ _ Ha) as Hlt.
  rewrite Hatt.
  assert (Hcrit : inCritical a -> Attach.mu s = Some i)
    by (intros Hc; apply Hinv; by exists a).
  destruct (decide (j = i)) as [->|Hne].
  - rewrite list_lookup_insert_eq by done.
    destruct Hcase as [(Hn & Hn' & ->)|[(Hpt & Hpt' & Hmu & ->)|
                      [(Hpt & Hpt' & ->)|(Hpt & Hpt' & ->)]]].
    + rewrite (Hinv i). split.
      * intros (a0 & Ha0 & Hc0). rewrite Ha in Ha0. injection Ha0 as <-. done.
      * intros (a0 & [= <-] & Hc0). done.
    + split; [|done]. intros _. exists a'. split; [done|]. by left.
    + split.
      * intros _. exists a'. split; [done|]. by right.
      * intros _. apply Hcrit. by left.
    + split; [discriminate|].
      intros (a0 & [= <-] & [Hc0|Hc0]); rewrite Hpt' in Hc0; discriminate.
  - rewrite list_lookup_insert_ne by done.
    destruct Hcase as [(Hn & Hn' & ->)|[(Hpt & Hpt' & Hmu & ->)|
                      [(Hpt & Hpt' & ->)|(Hpt & Hpt' & ->)]]].
    + apply Hinv.
    + split; [intros [= ?]; done|].
      intros Hj. apply Hinv in Hj. congruence.
    + apply Hinv.
    + split; [discriminate|].
      intros Hj. apply Hinv in Hj.
      assert (Attach.mu s = Some i) by (apply Hcrit; by right). congruence.
Qed.

Lemma lockInv_run sched :
  forall s s', Attach.runSchedule sched s = Some s' -> lockInv s -> lockInv s'.
Proof.
  induction sched as [|i sched IH]; intros s s'; cbn [Attach.runSchedule].
  - by intros [= <-].
  - destruct (Attach.stepOf i s) as [s1|] eqn:Hs; [|discriminate].
    intros Hrun Hinv. eapply IH; [done|]. by eapply lockInv_step.
Qed.

(** X21: however the goroutines of the broadcaster requests on a room are
    scheduled, at most one of them stands between [room.mu.Lock()] and
    [room.mu.Unlock()]: the store of [room.Broadcaster] is never run by two
    at once. *)
Theorem attach_mutual_exclusion (r : Room) (n : nat) (sched : list nat)
    (s : Attach.Sys) (i j : nat) (a b : Attach.Attempt) :
  Attach.runSchedule sched (Attach.arrive r n) = Some s ->
  Attach.attempts s !! i = Some a -> inCritical a ->
  Attach.attempts s !! j = Some b -> inCritical b ->
  i = j /\ Attach.mu s = Some i.
Proof.
  intros Hrun Hi Ha Hj Hb.
  pose proof (lockInv_run sched _ _ Hrun (lockInv_arrive r n)) as Hinv.
  assert (Attach.mu s = Some i) by (apply Hinv; by exists a).
  assert (Attach.mu s = Some j) by (apply Hinv; by exists b).
  split; congruence.
Qed.

(** X22: the mutex never blocks for good: in every state the goroutines
    can reach, as long as one of them has not finished its branch some
    goroutine can run its next statement. *)
Theorem attach_no_deadlock (r : Room) (n : nat) (sched : list nat)
    (s : Attach.Sys) (k : nat) (a : Attach.Attempt) :
  Attach.runSchedule sched (Attach.arrive r n) = Some s ->
  Attach.attempts s !! k = Some a -> ~ terminal a ->
  exists i s', Attach.stepOf i s = Some s'.
Proof.
  intros Hrun Hk Hterm.
  pose proof (lockInv_run sched _ _ Hrun (lockInv_arrive r n)) as Hinv.
  assert (Hfree : forall i x,
            Attach.attempts s !! i = Some x -> ~ terminal x ->
            Attach.aPoint x <> Attach.AtLock ->
            exists s', Attach.stepOf i s = Some s').
  { intros i x Hx Hnt Hnl. unfold Attach.stepOf. rewrite Hx.
    unfold terminal in Hnt.
    destruct (Attach.aPoint x) eqn:Hpt; try (exfalso; tauto).
    - destruct (Broadcaster (Attach.room s)); eauto.
    - destruct (Attach.aTransceiverErr x); eauto.
    - eauto.
    - eauto. }
  destruct (decide (Attach.aPoint a = Attach.AtLock)) as [Hlock|Hnl].
  - destruct (Attach.mu s) as [i|] eqn:Hmu.
    + destruct (proj1 (Hinv i) Hmu) as (x & Hx & Hc).
      exists i. apply (Hfree i x Hx).
      * unfold terminal. destruct Hc as [Hc|Hc]; rewrite Hc;
          intros [?|[?|?]]; discriminate.
      * destruct Hc as [Hc|Hc]; rewrite Hc; discriminate.
    + exists k. unfold Attach.stepOf. rewrite Hk, Hlock, Hmu. eauto.
  - exists k. by apply (Hfree k a).
Qed.


(** *** The further properties on concrete requests *)

(** An endpoint that refuses every local description. *)
Definition strictAPI : PeerConnectionAPI (list Call) := {|
  SetRemoteDescription sd e := (e ++ [CallSetRemoteDescription sd], None)%list;
  CreateAnswer e := (e ++ [CallCreateAnswer], inr (mkSessionDescription "answer" "v=0"))%list;
  SetLocalDescription sd e :=
    (e ++ [CallSetLocalDescription sd], Some "InvalidStateError")%list;
  AddICECandidate c e := (e ++ [CallAddICECandidate c], None)%list;
|}.

Definition asBroadcaster : JoinRequest (list Call) := joinAs "broadcaster" [].
Definition asListener : JoinRequest (list Call) := joinAs "listener" [].
Definition asGuest : JoinRequest (list Call) := joinAs "guest" [].

Lemma create_then_broadcaster_starts_witness :
  path asBroadcaster
  = "/join/" +:+ respRoom (snd (createRoom (E := list Call) "abcdef" emptyWorld))
  /\ snd (joinSetup asBroadcaster
            (fst (createRoom (E := list Call) "abcdef" emptyWorld)))
     = Started 0.
Proof.
  split; [reflexivity|].
  exact (proj1 (proj2
    (create_then_broadcaster_starts "abcdef" emptyWorld asBroadcaster []
       eq_refl eq_refl eq_refl eq_refl eq_refl))).
Defined.

Lemma join_second_broadcaster_rejected_witness :
  broadcasterOf 0 (run trackStarts emptyWorld) = Some 0
  /\ snd (joinRoom asBroadcaster [offerFrame] "EOF"
            (run trackStarts emptyWorld))
     = AlreadyBroadcasting 1
  /\ heap (fst (joinRoom asBroadcaster [offerFrame] "EOF"
                  (run trackStarts emptyWorld)))
     = heap (run trackStarts emptyWorld).
Proof.
  split; [reflexivity|].
  pose proof (join_second_broadcaster_rejected (run trackStarts emptyWorld)
                asBroadcaster [offerFrame] "EOF" 0 0 []
                eq_refl eq_refl eq_refl eq_refl eq_refl) as (Hres & Hheap & _).
  split; [exact Hres | exact Hheap].
Defined.

Lemma joinRoom_closes_connection_witness :
  resultPC (snd (joinRoom asListener [] "EOF" (run trackStarts emptyWorld)))
  = Some 1
  /\ exists ss,
       sessions (fst (joinRoom asListener [] "EOF"
                        (run trackStarts emptyWorld))) !! 1 = Some ss
       /\ sPCClosed ss = true /\ sWSClosed ss = true /\ sRunning ss = false.
Proof.
  assert (Hres :
    resultPC (snd (joinRoom asListener [] "EOF"
                     (run trackStarts emptyWorld))) = Some 1) by reflexivity.
  split; [exact Hres|].
  exact (proj2 (joinRoom_closes_connection (run trackStarts emptyWorld)
                  asListener [] "EOF" 1 Hres)).
Defined.

Lemma listener_of_one_room_witness :
  1 ∈ listenersOf 0 (run busyRoom emptyWorld)
  /\ 0 = 0
  /\ (forall room, broadcasterOf room (run busyRoom emptyWorld) <> Some 1).
Proof.
  assert (Hl : 1 ∈ listenersOf 0 (run busyRoom emptyWorld)).
  { apply (bool_decide_unpack _). by vm_compute. }
  split; [exact Hl|].
  pose proof (listener_of_one_room busyRoom 0 0 1 Hl Hl) as (Heq & _ & Hnb).
  split; [exact Heq | exact Hnb].
Defined.

(** The broadcaster of [trackStarts] has left. *)
Definition broadcasterLeft : list (Event (E := list Call)) := [EvReadError 0 "EOF"].

Lemma broadcaster_field_never_cleared_witness :
  heap (run trackStarts emptyWorld) !! 0 = Some (mkRoom "616263646566" (Some 0) ∅)
  /\ (sPCClosed <$> sessions (run broadcasterLeft (run trackStarts emptyWorld)) !! 0)
     = Some true
  /\ snd (joinRoom asBroadcaster [] "EOF"
            (run broadcasterLeft (run trackStarts emptyWorld)))
     = AlreadyBroadcasting 1.
Proof.
  split; [reflexivity|]. split; [reflexivity|].
  exact (proj2 (broadcaster_field_never_cleared broadcasterLeft
                  (run trackStarts emptyWorld) asBroadcaster [] "EOF"
                  0 (mkRoom "616263646566" (Some 0) ∅) 0 []
                  eq_refl eq_refl eq_refl eq_refl eq_refl eq_refl)).
Defined.

Lemma state_handler_noop_witness :
  (5 ∉ listenersOf 0 (run busyRoom emptyWorld))
  /\ onConnectionStateChange 0 5 PeerConnectionStateClosed (run busyRoom emptyWorld)
     = run busyRoom emptyWorld.
Proof.
  assert (Hp : 5 ∉ listenersOf 0 (run busyRoom emptyWorld)).
  { intros Hin. apply (bool_decide_pack _) in Hin. vm_compute in Hin. exact Hin. }
  split; [exact Hp|].
  exact (state_handler_noop 0 5 PeerConnectionStateClosed (run busyRoom emptyWorld)
           (or_intror Hp)).
Defined.

Lemma listener_attach_effect_witness :
  role asGuest <> "broadcaster"
  /\ snd (joinSetup asGuest oneRoom) = Started 0
  /\ heap (fst (joinSetup asGuest oneRoom)) !! 0
     = Some (mkRoom "616263646566" None ({[0]} ∪ ∅)).
Proof.
  assert (Hrole : role asGuest <> "broadcaster")
    by discriminate.
  split; [exact Hrole|].
  pose proof (listener_attach_effect oneRoom asGuest 0
                (newRoom "616263646566") [] eq_refl eq_refl Hrole eq_refl eq_refl
                eq_refl) as (Hres & Hheap & _).
  split; [exact Hres | exact Hheap].
Defined.

Lemma fanout_reaches_current_listeners_witness :
  sessions (run busyRoom emptyWorld) !! 0
  = Some (mkSession 0 true [] [] [AudioDefault] true false true true false false)
  /\ length (forwards (step (EvTrack 0 audioTrack) (run busyRoom emptyWorld)))
     = 0 + size (listenersOf 0 (run busyRoom emptyWorld))
  /\ ((audioTrack, 1) ∈ forwards (step (EvTrack 0 audioTrack) (run busyRoom emptyWorld))
      <-> (audioTrack, 1) ∈ forwards (run busyRoom emptyWorld)
          \/ (audioTrack = audioTrack /\ 1 ∈ listenersOf 0 (run busyRoom emptyWorld))).
Proof.
  split; [reflexivity|].
  pose proof (fanout_reaches_current_listeners 0 audioTrack (run busyRoom emptyWorld)
                (mkSession 0 true [] [] [AudioDefault] true false true true false false)
                eq_refl eq_refl) as (Hiff & Hlen & _).
  split; [exact Hlen | exact (Hiff audioTrack 1)].
Defined.

Lemma answer_sent_when_local_description_fails_witness :
  SetLocalDescription (PeerConnectionAPI := strictAPI)
    (mkSessionDescription "answer" "v=0")
    [CallSetRemoteDescription
       (mkSessionDescription "offer" (Json.dq "{'type':'offer','sdp':'v=0'}"));
     CallCreateAnswer]
  = ([CallSetRemoteDescription
        (mkSessionDescription "offer" (Json.dq "{'type':'offer','sdp':'v=0'}"));
      CallCreateAnswer;
      CallSetLocalDescription (mkSessionDescription "answer" "v=0")],
     Some "InvalidStateError")
  /\ sent (dispatch (api := strictAPI) true "offer"
             (fst (Json.Unmarshal offerFrame)) sig0)
     = [FrameAnswer (mkSessionDescription "answer" "v=0")].
Proof.
  split; [reflexivity|].
  rewrite (answer_sent_when_local_description_fails (api := strictAPI)
             (fst (Json.Unmarshal offerFrame)) sig0
             (mkSessionDescription "offer" (Json.dq "{'type':'offer','sdp':'v=0'}"))
             (mkSessionDescription "answer" "v=0")
             [CallSetRemoteDescription
                (mkSessionDescription "offer" (Json.dq "{'type':'offer','sdp':'v=0'}"))]
             [CallSetRemoteDescription
                (mkSessionDescription "offer" (Json.dq "{'type':'offer','sdp':'v=0'}"));
              CallCreateAnswer]
             [CallSetRemoteDescription
                (mkSessionDescription "offer" (Json.dq "{'type':'offer','sdp':'v=0'}"));
              CallCreateAnswer;
              CallSetLocalDescription (mkSessionDescription "answer" "v=0")]
             "InvalidStateError"
             ltac:(by vm_compute) eq_refl eq_refl eq_refl).
  reflexivity.
Defined.

(** Two requests, the first inside its critical section, the second
    waiting for the mutex. *)
Definition oneInside : Attach.Sys :=
  Attach.mkSys (newRoom "616263646566") (Some 0)
    [Attach.mkAttempt 0 None Attach.AtStore [];
     Attach.mkAttempt 1 None Attach.AtLock []].

Lemma attach_mutual_exclusion_witness :
  Attach.runSchedule [0; 1; 0; 1; 0] (Attach.arrive (newRoom "616263646566") 2)
  = Some oneInside
  /\ 0 = 0 /\ Attach.mu oneInside = Some 0.
Proof.
  assert (Hrun :
    Attach.runSchedule [0; 1; 0; 1; 0] (Attach.arrive (newRoom "616263646566") 2)
    = Some oneInside) by reflexivity.
  split; [exact Hrun|].
  exact (attach_mutual_exclusion (newRoom "616263646566") 2 [0; 1; 0; 1; 0] oneInside
           0 0 (Attach.mkAttempt 0 None Attach.AtStore [])
           (Attach.mkAttempt 0 None Attach.AtStore [])
           Hrun eq_refl (or_introl eq_refl) eq_refl (or_introl eq_refl)).
Defined.

Lemma attach_no_deadlock_witness :
  Attach.stepOf 1 oneInside = None
  /\ exists i s', Attach.stepOf i oneInside = Some s'.
Proof.
  split; [reflexivity|].
  assert (Hrun :
    Attach.runSchedule [0; 1; 0; 1; 0] (Attach.arrive (newRoom "616263646566") 2)
    = Some oneInside) by reflexivity.
  assert (Hnt : ~ terminal (Attach.mkAttempt 1 None Attach.AtLock [])).
  { unfold terminal. cbn. intros [H|[H|H]]; discriminate H. }
  exact (attach_no_deadlock (newRoom "616263646566") 2 [0; 1; 0; 1; 0] oneInside
           1 (Attach.mkAttempt 1 None Attach.AtLock []) Hrun eq_refl Hnt).
Defined.

